(** * WeatherBot: a shallow embedding of [weatherbot.py]

    The bot's text handling, its registration loop, its read/dispatch loop
    and its weather lookup, written as Rocq functions, followed by the
    properties of the protocol session that hold (or fail) on them.

    Conventions.
    - A Python [str] is a list of Unicode code points ([N]); the literals of
      the source are ASCII and are written with [lit].
    - What the bot does to the outside world is a trace of [action]s.  The
      debug [print] calls write to standard output only and are left out.
    - What the outside world does to the bot is a script: for every socket
      the bot opens, whether [connect] succeeds and what each [recv] (with
      its [decode]) gives.  When the script of a socket is used up, the bot
      is blocked in [recv]: the source sets no timeout on the socket.
    - What a socket delivers is bytes; [utf8_decode] is the strict
      [decode("UTF-8")] of one read.  A script gives each read either as the
      text it decodes to or as the exception it raises; [recv_bytes] turns
      the bytes of a read into the one or the other.
    - [self.irc.send] is taken to succeed, and so is the encoding of the
      message before it (line 85): a [Send] in a trace is a call of
      [send].  Text decoded from the socket can always be encoded; what the
      weather lookup returns need not be ([encodable]).  Where all of it
      can be, every message of a run can be encoded. *)

From Stdlib Require Import Ascii String.
From Stdlib Require Import List NArith ZArith Bool Arith Lia DecimalString.
Import ListNotations.

(** ** Python strings *)

Module PyStr.

Definition char := N.
Definition str := list char.

(** An ASCII literal of the source. *)
Definition lit (s : string) : str := map N_of_ascii (list_ascii_of_string s).

(** [a == b] *)
Fixpoint eqb (a b : str) : bool :=
  match a, b with
  | [], [] => true
  | x :: a', y :: b' => (x =? y)%N && eqb a' b'
  | _, _ => false
  end.

(** The characters [str.split()] and [str.strip()] treat as whitespace. *)
Definition isspace (c : char) : bool :=
  (((9 <=? c) && (c <=? 13)) || ((28 <=? c) && (c <=? 32))
   || (c =? 133) || (c =? 160) || (c =? 5760)
   || ((8192 <=? c) && (c <=? 8202))
   || (c =? 8232) || (c =? 8233) || (c =? 8239) || (c =? 8287)
   || (c =? 12288))%N.

(** [s.startswith(prefix)] *)
Fixpoint startswith (s prefix : str) {struct prefix} : bool :=
  match prefix, s with
  | [], _ => true
  | _ :: _, [] => false
  | p :: prefix', c :: s' => (p =? c)%N && startswith s' prefix'
  end.

(** The position of the leftmost occurrence of [sub] in [s], if any. *)
Fixpoint occurrence (s sub : str) : option nat :=
  match s with
  | [] => if startswith [] sub then Some 0 else None
  | _ :: s' =>
    if startswith s sub then Some 0 else option_map S (occurrence s' sub)
  end.

(** [s.find(sub)] *)
Definition find (s sub : str) : Z :=
  match occurrence s sub with Some i => Z.of_nat i | None => (-1)%Z end.

(** [sub in s] *)
Definition contains (s sub : str) : bool :=
  match occurrence s sub with Some _ => true | None => false end.

(** [s[i:]]: a negative [i] counts from the end. *)
Definition slice_from (s : str) (i : Z) : str :=
  if (i <? 0)%Z then skipn (length s - Z.to_nat (- i)) s
  else skipn (Z.to_nat i) s.

(** [s.split()]: the maximal runs of non-whitespace characters.  The
    auxiliary function returns the run that starts the string (empty when the
    string starts with whitespace) and the words after it. *)
Definition push_word (w : str) (ws : list str) : list str :=
  match w with [] => ws | _ :: _ => w :: ws end.

Fixpoint split_ws_aux (s : str) : str * list str :=
  match s with
  | [] => ([], [])
  | c :: s' =>
    let (w, ws) := split_ws_aux s' in
    if isspace c then ([], push_word w ws) else (c :: w, ws)
  end.

Definition split_ws (s : str) : list str :=
  let (w, ws) := split_ws_aux s in push_word w ws.

(** [s.split(sep)] and [s.split(sep, maxsplit)] for a non-empty [sep] (an
    empty one is a [ValueError]; every separator of the source is a non-empty
    literal).  The string is scanned from the left; at the leftmost
    occurrence of [sep] the current piece ends and the scan resumes after the
    occurrence ([skip] counts the characters of it still to pass).  The
    result is the first piece and the list of the others. *)
Definition may_split (maxsplit : option nat) : bool :=
  match maxsplit with Some 0 => false | _ => true end.

Definition one_less (maxsplit : option nat) : option nat :=
  option_map Nat.pred maxsplit.

Fixpoint split_aux (sep : str) (maxsplit : option nat) (skip : nat) (s : str)
  : str * list str :=
  match s with
  | [] => ([], [])
  | c :: s' =>
    match skip with
    | S k => split_aux sep maxsplit k s'
    | O =>
      if may_split maxsplit && startswith s sep
      then ([], let (h, t) := split_aux sep (one_less maxsplit)
                                (length sep - 1) s' in h :: t)
      else let (h, t) := split_aux sep maxsplit 0 s' in (c :: h, t)
    end
  end.

Definition pieces (sep : str) (maxsplit : option nat) (skip : nat) (s : str)
  : list str :=
  let (h, t) := split_aux sep maxsplit skip s in h :: t.

Definition split (s sep : str) : list str := pieces sep None 0 s.

Definition split_max (s sep : str) (maxsplit : nat) : list str :=
  pieces sep (Some maxsplit) 0 s.

(** [sep.join(l)] *)
Fixpoint join (sep : str) (l : list str) : str :=
  match l with
  | [] => []
  | [x] => x
  | x :: l' => x ++ sep ++ join sep l'
  end.

(** [s.strip()] *)
Fixpoint lstrip (s : str) : str :=
  match s with
  | [] => []
  | c :: s' => if isspace c then lstrip s' else s
  end.

Definition rstrip (s : str) : str := rev (lstrip (rev s)).

Definition strip (s : str) : str := rstrip (lstrip s).

(** [s] has no whitespace at either end. *)
Definition trimmed (s : str) : bool :=
  match s with
  | [] => true
  | c :: _ => negb (isspace c) && negb (isspace (last s c))
  end.

(** No character of [s] is whitespace. *)
Definition no_space (s : str) : bool := forallb (fun c => negb (isspace c)) s.

(** [x in l] for a list of strings. *)
Definition mem (x : str) (l : list str) : bool := existsb (eqb x) l.

End PyStr.
Import PyStr.

(** ** UTF-8 *)

(** A continuation byte. *)
Definition continuation (b : N) : bool := ((128 <=? b) && (b <=? 191))%N.

(** The second byte of a three-byte character: no overlong form, no
    surrogate. *)
Definition second_of_three (b0 b1 : N) : bool :=
  (if b0 =? 224 then (160 <=? b1) && (b1 <=? 191)
   else if b0 =? 237 then (128 <=? b1) && (b1 <=? 159)
   else continuation b1)%N.

(** The second byte of a four-byte character: no overlong form, nothing
    above U+10FFFF. *)
Definition second_of_four (b0 b1 : N) : bool :=
  (if b0 =? 240 then (144 <=? b1) && (b1 <=? 191)
   else if b0 =? 244 then (128 <=? b1) && (b1 <=? 143)
   else continuation b1)%N.

(** The first character of a byte string and the bytes after it; [None]
    when the bytes do not start with a whole, well-formed character. *)
Definition decode_step (bs : list N) : option (char * list N) :=
  match bs with
  | [] => None
  | b0 :: r0 =>
    if (b0 <? 128)%N then Some (b0, r0)
    else if ((194 <=? b0) && (b0 <=? 223))%N then
      match r0 with
      | b1 :: r1 =>
        if continuation b1
        then Some (((b0 - 192) * 64 + (b1 - 128))%N, r1)
        else None
      | _ => None
      end
    else if ((224 <=? b0) && (b0 <=? 239))%N then
      match r0 with
      | b1 :: b2 :: r2 =>
        if second_of_three b0 b1 && continuation b2
        then Some (((b0 - 224) * 4096 + (b1 - 128) * 64 + (b2 - 128))%N, r2)
        else None
      | _ => None
      end
    else if ((240 <=? b0) && (b0 <=? 244))%N then
      match r0 with
      | b1 :: b2 :: b3 :: r3 =>
        if second_of_four b0 b1 && continuation b2 && continuation b3
        then Some (((b0 - 240) * 262144 + (b1 - 128) * 4096
                    + (b2 - 128) * 64 + (b3 - 128))%N, r3)
        else None
      | _ => None
      end
    else None
  end.

(** Character after character; every step takes at least one byte, so
    [length bs] steps are enough. *)
Fixpoint decode_all (fuel : nat) (bs : list N) : option str :=
  match bs with
  | [] => Some []
  | _ :: _ =>
    match fuel with
    | O => None
    | S fuel' =>
      match decode_step bs with
      | Some (c, rest) => option_map (cons c) (decode_all fuel' rest)
      | None => None
      end
    end
  end.

(** [bs.decode("UTF-8")]; [None] stands for [UnicodeDecodeError]. *)
Definition utf8_decode (bs : list N) : option str :=
  decode_all (length bs) bs.

(** A surrogate code point, which has no UTF-8 form. *)
Definition surrogate (c : char) : bool := ((55296 <=? c) && (c <=? 57343))%N.

(** Whether [bytes(s, "UTF-8")] succeeds. *)
Definition encodable (s : str) : bool := forallb (fun c => negb (surrogate c)) s.

(** ** Exceptions, effects and the outside world *)

(** The exceptions the bot can meet.  [OtherError] is whatever the socket,
    the TLS layer, [requests] or the JSON decoder raise, with its message. *)
Inductive exn :=
| IndexError
| KeyError (key : str)
| TypeError
| AttributeError
| UnicodeDecodeError
| OtherError (msg : str).

Definition result (A : Type) : Type := (exn + A)%type.

(** What the bot does, in order.  [Close] stands for the closing of a
    socket, which no function of the bot performs. *)
Inductive action :=
| Connect (host : str) (port : Z)
| Send (message : str)
| Sleep (seconds : nat)
| Lookup (city : str)
| Close.

(** A computation that acts and then returns or raises. *)
Definition M (A : Type) : Type := (list action * result A)%type.

Definition ret {A} (a : A) : M A := ([], inr a).

Definition raise {A} (e : exn) : M A := ([], inl e).

Definition bind {A B} (m : M A) (f : A -> M B) : M B :=
  match m with
  | (tr, inl e) => (tr, inl e)
  | (tr, inr a) => let (tr', r) := f a in (tr ++ tr', r)
  end.

Definition emit (a : action) : M unit := ([a], inr tt).

Declare Scope bot_scope.
Delimit Scope bot_scope with bot.
Notation "x <- m ;; k" := (bind m (fun x => k))
  (at level 61, m at next level, right associativity) : bot_scope.
Notation "m ;; k" := (bind m (fun _ => k))
  (at level 61, right associativity) : bot_scope.
Local Open Scope bot_scope.

(** [l[i]] *)
Definition index {A} (l : list A) (i : nat) : M A :=
  match nth_error l i with
  | Some x => ret x
  | None => raise IndexError
  end.

(** [for x in l: body(x)] *)
Fixpoint for_each {A} (l : list A) (body : A -> M unit) : M unit :=
  match l with
  | [] => ret tt
  | x :: l' => body x ;; for_each l' body
  end.

(** What [self.irc.recv(2048).decode("UTF-8")] gives: a piece of text, or an
    exception ([UnicodeDecodeError] from [decode], another one from [recv]). *)
Inductive recv_result :=
| Chunk (text : str)
| Raises (e : exn).

Definition recv_decode (r : recv_result) : M str :=
  match r with
  | Chunk text => ret text
  | Raises e => raise e
  end.

(** The read that delivers the bytes [bs]. *)
Definition recv_bytes (bs : list N) : recv_result :=
  match utf8_decode bs with
  | Some text => Chunk text
  | None => Raises UnicodeDecodeError
  end.

(** One socket: the exception of [connect], if it raises, and what the
    successive reads give. *)
Record socket := {
  refused : option exn;
  inbound : list recv_result
}.

(** ** The bot *)

Record WeatherBot := {
  server : str;
  port : Z;
  nickname : str;
  channels : list str
}.

Definition WeatherBot_init : WeatherBot := {|
  server := lit "irc.server.com";
  port := 6697;
  nickname := lit "WeatherBot";
  channels := [lit "#help"; lit "#welcome"]
|}.

Definition crlf : str := [13; 10]%N.

(** The two pauses of the source, in seconds: [time.sleep(5)] when a
    registration is given up, [time.sleep(30)] when the outer loop has caught
    an exception. *)
Definition registration_retry_delay : nat := 5.
Definition reconnect_cooldown : nat := 30.

(** Lines 82-85: the call [self.send(message)].  Line 85 encodes the message
    and a CRLF (which fails when the message holds a surrogate, see
    [encodable]) and writes the bytes to the socket; both are taken to
    succeed.  The message is recorded as it is passed: a message that holds
    a CRLF of its own puts more than one line on the wire. *)
Definition send (message : str) : M unit := emit (Send message).

Definition send_message (target message : str) : M unit :=
  send (lit "PRIVMSG " ++ target ++ lit " :" ++ message).

Definition usage : str := lit "Usage: !weather <city>".

Definition help_msg : str :=
  lit "MansionNet Weather Bot | Commands: !weather <city> - Get weather information for a city".

(** The line [:origin PRIVMSG target :text]. *)
Definition privmsg_line (origin target text : str) : str :=
  lit ":" ++ origin ++ lit " PRIVMSG " ++ target ++ lit " :" ++ text.

Section Dispatch.

Variable self : WeatherBot.
Variable get_weather : str -> str.

(** Lines 172-174. *)
Definition handle_ping (line : str) : M unit :=
  if startswith line (lit "PING") then
    ping_token <- index (split_ws line) 1 ;;
    send (lit "PONG " ++ ping_token)
  else ret tt.

(** Lines 189-201. *)
Definition handle_command (target_channel message : str) : M unit :=
  if startswith message (lit "!weather") then
    let parts := split_ws message in
    if 1 <? length parts then
      let city := join (lit " ") (skipn 1 parts) in
      emit (Lookup city) ;;
      send_message target_channel (get_weather city)
    else send_message target_channel usage
  else if eqb message (lit "!help") then
    send_message target_channel help_msg
  else ret tt.

(** [line.split("PRIVMSG")[1].split(":", 1)[1].strip()] *)
Definition message_of (line : str) : M str :=
  after <- index (split line (lit "PRIVMSG")) 1 ;;
  text <- index (split_max after (lit ":") 1) 1 ;;
  ret (strip text).

(** [line.split()[2]] *)
Definition target_of (line : str) : M str := index (split_ws line) 2.

(** Lines 177-201. *)
Definition handle_privmsg (line : str) : M unit :=
  if contains line (lit "PRIVMSG") then
    target_channel <- target_of line ;;
    if mem target_channel (channels self) then
      message <- message_of line ;;
      handle_command target_channel message
    else ret tt
  else ret tt.

(** The body of [for line in lines]. *)
Definition process_line (line : str) : M unit :=
  handle_ping line ;; handle_privmsg line.

(** Lines 164-166: the framing step. *)
Definition frame (buffer chunk : str) : list str * str :=
  let buffer := buffer ++ chunk in
  let lines := split buffer crlf in
  (removelast lines, last lines []).

(** The framing step over the successive chunks of an input: the lines it
    yields, in order, and the buffer it is left with. *)
Fixpoint feed (buffer : str) (chunks : list str) : list str * str :=
  match chunks with
  | [] => ([], buffer)
  | chunk :: chunks' =>
    let (lines, buffer') := frame buffer chunk in
    let (lines', buffer'') := feed buffer' chunks' in
    (lines ++ lines', buffer'')
  end.

(** The same over the bytes of the successive reads: a read that does not
    decode yields nothing and empties the buffer (lines 203-205). *)
Fixpoint feed_bytes (buffer : str) (reads : list (list N)) : list str * str :=
  match reads with
  | [] => ([], buffer)
  | bs :: reads' =>
    match utf8_decode bs with
    | Some chunk =>
      let (lines, buffer') := frame buffer chunk in
      let (lines', buffer'') := feed_bytes buffer' reads' in
      (lines ++ lines', buffer'')
    | None => feed_bytes [] reads'
    end
  end.

(** Lines 164-201: the body of the inner [try]. *)
Definition read_dispatch (buffer : str) (r : recv_result) : M str :=
  chunk <- recv_decode r ;;
  let (lines, buffer) := frame buffer chunk in
  for_each lines process_line ;;
  ret buffer.

(** Lines 162-205: one turn of the inner loop. *)
Definition active_turn (buffer : str) (r : recv_result) : M str :=
  match read_dispatch buffer r with
  | (tr, inl UnicodeDecodeError) => (tr, inr [])
  | m => m
  end.

(** Lines 161-205.  The loop ends by an exception only; when the reads of
    the script are used up it is blocked in [recv], with this buffer. *)
Fixpoint active_loop (buffer : str) (reads : list recv_result) : M str :=
  match reads with
  | [] => ret buffer
  | r :: reads' =>
    buffer' <- active_turn buffer r ;;
    active_loop buffer' reads'
  end.

(** Where the registration loop stands after a turn. *)
Inductive registration :=
| Waiting (buffer : str)
| Registered
| Abandoned.

(** Lines 44-64: the body of the [try] of the registration loop. *)
Definition registration_body (buffer : str) (r : recv_result)
  : M registration :=
  temp <- recv_decode r ;;
  let buffer := buffer ++ temp in
  (if contains buffer (lit "PING") then
     ping_token <-
       index (split_ws (slice_from buffer (find buffer (lit "PING")))) 1 ;;
     send (lit "PONG " ++ ping_token)
   else ret tt) ;;
  if contains buffer (lit "001") then ret Registered
  else if contains buffer (lit "Closing Link") || contains buffer (lit "ERROR")
  then emit (Sleep registration_retry_delay) ;; ret Abandoned
  else ret (Waiting buffer).

(** Lines 43-72: one turn of the registration loop. *)
Definition registration_turn (buffer : str) (r : recv_result)
  : M registration :=
  match registration_body buffer r with
  | (tr, inl UnicodeDecodeError) => (tr, inr (Waiting []))
  | (tr, inl _) => (tr ++ [Sleep registration_retry_delay], inr Abandoned)
  | m => m
  end.

(** Lines 42-72.  Returns where the loop stands and the reads left; when
    the reads are used up while [Waiting], the loop is blocked in [recv]. *)
Fixpoint registration_loop (buffer : str) (reads : list recv_result)
  : M (registration * list recv_result) :=
  match reads with
  | [] => ret (Waiting buffer, [])
  | r :: reads' =>
    st <- registration_turn buffer r ;;
    match st with
    | Waiting buffer' => registration_loop buffer' reads'
    | _ => ret (st, reads')
    end
  end.

(** Whether the registration loop has come to an end on these reads. *)
Definition registration_ended (reads : list recv_result) : bool :=
  match registration_loop [] reads with
  | (_, inr (Waiting _, _)) => false
  | _ => true
  end.

(** What [connect] comes to: it returns [True] (with the reads left on the
    socket), returns [False], or stays blocked in the registration loop. *)
Inductive connected :=
| ConnectTrue (reads : list recv_result)
| ConnectFalse
| ConnectBlocked (buffer : str).

(** Lines 26-80. *)
Definition connect (sock : socket) : M connected :=
  emit (Connect (server self) (port self)) ;;
  match refused sock with
  | Some e => raise e
  | None =>
    send (lit "NICK " ++ nickname self) ;;
    send (lit "USER " ++ nickname self
            ++ lit " 0 * :MansionNet Weather Information Bot") ;;
    st <- registration_loop [] (inbound sock) ;;
    match st with
    | (Registered, reads) =>
      for_each (channels self)
        (fun channel => send (lit "JOIN " ++ channel) ;; emit (Sleep 1)) ;;
      ret (ConnectTrue reads)
    | (Abandoned, _) => ret ConnectFalse
    | (Waiting buffer, _) => ret (ConnectBlocked buffer)
    end
  end.

(** Where the bot waits when the reads of its socket are used up: in the
    [recv] of the registration loop or in that of the read loop, with the
    buffer of that loop. *)
Inductive blocked :=
| InRegistration (buffer : str)
| InActive (buffer : str).

(** Lines 158-205: the body of the outer [try].  It returns (with [None])
    when [connect] returned [False]; otherwise the bot ends blocked in a
    [recv]. *)
Definition attempt (sock : socket) : M (option blocked) :=
  c <- connect sock ;;
  match c with
  | ConnectTrue reads =>
    buffer <- active_loop [] reads ;;
    ret (Some (InActive buffer))
  | ConnectFalse => ret None
  | ConnectBlocked buffer => ret (Some (InRegistration buffer))
  end.

(** Lines 156-210: the outer loop, one socket per turn.  The result is the
    trace and where the bot is blocked at the end of it ([None]: the script
    has no socket left for the next [connect]). *)
Fixpoint run (sockets : list socket) : list action * option blocked :=
  match sockets with
  | [] => ([], None)
  | sock :: sockets' =>
    match attempt sock with
    | (tr, inl _) =>
      let (tr', b) := run sockets' in (tr ++ Sleep reconnect_cooldown :: tr', b)
    | (tr, inr None) => let (tr', b) := run sockets' in (tr ++ tr', b)
    | (tr, inr (Some b)) => (tr, Some b)
    end
  end.

End Dispatch.

(** ** The weather lookup *)

(** A decoded JSON document.  A finite float is [mantissa * 2 ^ exponent];
    the members of an object are in the order of the text. *)
#[warnings="-register-all"]
Inductive json :=
| JNull
| JBool (b : bool)
| JInt (z : Z)
| JFloat (mantissa exponent : Z)
| JNonFinite
| JString (s : str)
| JArray (items : list json)
| JObject (members : list (str * json)).

(** What [requests.get(url)] returns when it returns: the status code and
    what [response.json()] gives. *)
Record response := {
  status_code : Z;
  json_body : result json
}.

(** The dictionary [get_coordinates] returns. *)
Record location := {
  lat : json;
  lon : json;
  name : json;
  country : json
}.

Definition bind_result {A B} (m : result A) (f : A -> result B) : result B :=
  match m with
  | inl e => inl e
  | inr a => f a
  end.

Declare Scope result_scope.
Delimit Scope result_scope with result.
Notation "x <- m ;; k" := (bind_result m (fun x => k))
  (at level 61, m at next level, right associativity) : result_scope.

(** [bool(j)] *)
Definition truthy (j : json) : bool :=
  match j with
  | JNull => false
  | JBool b => b
  | JInt z => negb (z =? 0)%Z
  | JFloat m _ => negb (m =? 0)%Z
  | JNonFinite => true
  | JString [] => false
  | JString (_ :: _) => true
  | JArray [] => false
  | JArray (_ :: _) => true
  | JObject [] => false
  | JObject (_ :: _) => true
  end.

(** The value of a key in a decoded object: of a repeated key the decoder
    keeps the last value. *)
Fixpoint lookup (key : str) (members : list (str * json)) : option json :=
  match members with
  | [] => None
  | (k, v) :: members' =>
    match lookup key members' with
    | Some v' => Some v'
    | None => if eqb k key then Some v else None
    end
  end.

Definition quoted (key : str) : str := lit "'" ++ key ++ lit "'".

(** [j[key]] for a string [key] *)
Definition subscript (j : json) (key : str) : result json :=
  match j with
  | JObject members =>
    match lookup key members with
    | Some v => inr v
    | None => inl (KeyError (quoted key))
    end
  | _ => inl TypeError
  end.

(** [j[0]] *)
Definition subscript0 (j : json) : result json :=
  match j with
  | JArray (x :: _) => inr x
  | JArray [] => inl IndexError
  | JString (c :: _) => inr (JString [c])
  | JString [] => inl IndexError
  | JObject _ => inl (KeyError (lit "0"))
  | _ => inl TypeError
  end.

(** [j.get(key)] *)
Definition get (j : json) (key : str) : result json :=
  match j with
  | JObject members =>
    inr (match lookup key members with Some v => v | None => JNull end)
  | _ => inl AttributeError
  end.

(** The integer a float is equal to, if it is equal to one. *)
Definition float_integer (m e : Z) : option Z :=
  if (0 <=? e)%Z then Some (m * 2 ^ e)%Z
  else if (m mod 2 ^ (- e) =? 0)%Z then Some (m / 2 ^ (- e))%Z
  else None.

Definition weather_codes : list (Z * str) :=
  [ (0, lit "Clear sky");
    (1, lit "Mainly clear"); (2, lit "Partly cloudy"); (3, lit "Overcast");
    (45, lit "Foggy"); (48, lit "Depositing rime fog");
    (51, lit "Light drizzle"); (53, lit "Moderate drizzle");
    (55, lit "Dense drizzle");
    (61, lit "Slight rain"); (63, lit "Moderate rain"); (65, lit "Heavy rain");
    (71, lit "Slight snow"); (73, lit "Moderate snow"); (75, lit "Heavy snow");
    (77, lit "Snow grains");
    (80, lit "Slight rain showers"); (81, lit "Moderate rain showers");
    (82, lit "Violent rain showers");
    (85, lit "Slight snow showers"); (86, lit "Heavy snow showers");
    (95, lit "Thunderstorm"); (96, lit "Thunderstorm with hail");
    (99, lit "Thunderstorm with heavy hail") ]%Z.

Fixpoint assoc (k : Z) (table : list (Z * str)) : option str :=
  match table with
  | [] => None
  | (k', v) :: table' => if (k =? k')%Z then Some v else assoc k table'
  end.

(** [weather_codes.get(code, "Unknown")]: a list or an object is not
    hashable; a boolean or a float finds the integer it is equal to. *)
Definition weather_desc_of (code : json) : result str :=
  let at_key (k : option Z) : str :=
    match k with
    | Some z =>
      match assoc z weather_codes with Some d => d | None => lit "Unknown" end
    | None => lit "Unknown"
    end in
  match code with
  | JArray _ | JObject _ => inl TypeError
  | JBool b => inr (at_key (Some (if b then 1 else 0)%Z))
  | JInt z => inr (at_key (Some z))
  | JFloat m e => inr (at_key (float_integer m e))
  | JNull | JNonFinite | JString _ => inr (at_key None)
  end.

Section Weather.

(** The two HTTP calls, the text Python gives a JSON value in an f-string,
    and the text of [str(e)]. *)
Variable requests_get : str -> result response.
Variable py_str : json -> str.
Variable exn_str : exn -> str.

Local Open Scope result_scope.

(** The two URLs, lines 94 and 120. *)
Definition geocoding_url (city : str) : str :=
  lit "https://geocoding-api.open-meteo.com/v1/search?name="
  ++ city ++ lit "&count=1&language=en&format=json".

Definition forecast_url (location : location) : str :=
  lit "https://api.open-meteo.com/v1/forecast?latitude="
  ++ py_str (lat location) ++ lit "&longitude=" ++ py_str (lon location)
  ++ lit "&current=temperature_2m,relative_humidity_2m,wind_speed_10m,weather_code".

(** Lines 91-109. *)
Definition get_coordinates (city : str) : option location :=
  let url := geocoding_url city in
  let body : result (option location) :=
    response <- requests_get url ;;
    data <- json_body response ;;
    if (status_code response =? 200)%Z then
      results <- get data (lit "results") ;;
      if truthy results then
        results <- subscript data (lit "results") ;;
        location <- subscript0 results ;;
        latitude <- subscript location (lit "latitude") ;;
        longitude <- subscript location (lit "longitude") ;;
        name <- subscript location (lit "name") ;;
        country <- subscript location (lit "country") ;;
        inr (Some {| lat := latitude; lon := longitude;
                     name := name; country := country |})
      else inr None
    else inr None in
  match body with
  | inr r => r
  | inl _ => None
  end.

Definition could_not_find (city : str) : str :=
  lit "Could not find location: " ++ city.

Definition could_not_fetch (city : str) : str :=
  lit "Could not fetch weather data for " ++ city.

Definition error_fetching (msg : str) : str :=
  lit "Error fetching weather data: " ++ msg.

Definition summary (name country weather_desc temperature humidity wind : str)
  : str :=
  lit "Weather in " ++ name ++ lit ", " ++ country ++ lit ": "
  ++ weather_desc ++ lit ", "
  ++ lit "Temperature: " ++ temperature ++ [176%N] ++ lit "C, "
  ++ lit "Humidity: " ++ humidity ++ lit "%, "
  ++ lit "Wind: " ++ wind ++ lit " km/h".

(** Lines 111-152. *)
Definition get_weather (city : str) : str :=
  let body : result str :=
    match get_coordinates city with
    | None => inr (could_not_find city)
    | Some location =>
      let url := forecast_url location in
      response <- requests_get url ;;
      if (status_code response =? 200)%Z then
        data <- json_body response ;;
        current <- subscript data (lit "current") ;;
        code <- subscript current (lit "weather_code") ;;
        weather_desc <- weather_desc_of code ;;
        temperature <- subscript current (lit "temperature_2m") ;;
        humidity <- subscript current (lit "relative_humidity_2m") ;;
        wind <- subscript current (lit "wind_speed_10m") ;;
        inr (summary (py_str (name location)) (py_str (country location))
               weather_desc (py_str temperature) (py_str humidity)
               (py_str wind))
      else inr (could_not_fetch city)
    end in
  match body with
  | inr s => s
  | inl e => error_fetching (exn_str e)
  end.

End Weather.

(** ** Sample data for the examples *)

(** A rendering of JSON values: strings as they are, integers in decimal. *)
Definition sample_py_str (j : json) : str :=
  match j with
  | JString s => s
  | JInt z => lit (DecimalString.NilZero.string_of_int (Z.to_int z))
  | _ => lit "?"
  end.

Definition sample_exn_str (e : exn) : str :=
  match e with
  | KeyError key => key
  | OtherError msg => msg
  | _ => lit "?"
  end.

Definition paris : location := {|
  lat := JFloat 859438277624133 (-44);
  lon := JFloat 5289027402383911 (-51);
  name := JString (lit "Paris");
  country := JString (lit "France")
|}.

Definition geocoding_paris : response := {|
  status_code := 200;
  json_body :=
    inr (JObject
           [(lit "results",
             JArray [JObject [(lit "name", name paris);
                              (lit "latitude", lat paris);
                              (lit "longitude", lon paris);
                              (lit "country", country paris)]])])
|}.

Definition forecast_overcast : response := {|
  status_code := 200;
  json_body :=
    inr (JObject
           [(lit "current",
             JObject [(lit "temperature_2m", JInt 21);
                      (lit "relative_humidity_2m", JInt 40);
                      (lit "wind_speed_10m", JInt 8);
                      (lit "weather_code", JInt 3)])])
|}.

Definition forecast_unavailable : response := {|
  status_code := 503;
  json_body := inl (OtherError (lit "Expecting value: line 1 column 1 (char 0)"))
|}.

(** The geocoding finds Paris; the forecast request comes to [forecast]. *)
Definition sample_requests_get (forecast : result response) (url : str)
  : result response :=
  if startswith url (lit "https://geocoding-api.open-meteo.com/")
  then inr geocoding_paris
  else forecast.

(** ** Observations on traces *)

(** A pause long enough to count between two connection attempts. *)
Definition long_pause (a : action) : bool :=
  match a with
  | Sleep seconds => registration_retry_delay <=? seconds
  | _ => false
  end.

(** Every [Connect] of the trace, the first apart, comes after a long pause
    made since the [Connect] before it.  [rested] says whether such a pause
    has been made since the last [Connect]. *)
Fixpoint paced (rested : bool) (tr : list action) : bool :=
  match tr with
  | [] => true
  | Connect _ _ :: tr' => rested && paced false tr'
  | a :: tr' => paced (rested || long_pause a) tr'
  end.

(** What the bot may do: pass to [send] a message that begins as one of
    the five commands of its protocol do, the [PRIVMSG] with one of its
    channels; connect, pause and look up; never close a socket. *)
Definition bot_command (self : WeatherBot) (a : action) : bool :=
  match a with
  | Send message =>
    startswith message (lit "NICK ") || startswith message (lit "USER ")
    || startswith message (lit "JOIN ") || startswith message (lit "PONG ")
    || existsb (fun channel =>
                  startswith message (lit "PRIVMSG " ++ channel ++ lit " :"))
         (channels self)
  | Close => false
  | _ => true
  end.

(** A word: not empty, no whitespace. *)
Definition word (w : str) : Prop := w <> [] /\ no_space w = true.




(** A call of [send] is made with a message that line 85 can encode. *)
Definition encoded (a : action) : bool :=
  match a with
  | Send message => encodable message
  | _ => true
  end.


Definition is_connect (a : action) : bool :=
  match a with
  | Connect _ _ => true
  | _ => false
  end.

(** What a session does once its socket is connected: messages the bot
    may send, pauses and lookups. *)
Definition session_action (self : WeatherBot) (a : action) : Prop :=
  bot_command self a = true /\ is_connect a = false.

(** The computation raises nothing but exceptions in [Q]. *)
Definition only_raises {A} (Q : exn -> Prop) (m : M A) : Prop :=
  forall e, snd m = inl e -> Q e.

(** * Properties *)

(** ** Strings *)

Lemma eqb_eq (a b : str) : eqb a b = true <-> a = b.
Proof.
  revert b; induction a as [|x a IH]; intros [|y b]; simpl;
    try (split; [discriminate | discriminate]); try tauto.
  rewrite andb_true_iff, N.eqb_eq, IH.
  split; [intros [-> ->]; reflexivity | intros H; injection H; auto].
Qed.

Lemma startswith_spec (s p : str) :
  startswith s p = true <-> exists r, s = p ++ r.
Proof.
  revert s; induction p as [|x p IH]; intros s; simpl.
  - split; [exists s; reflexivity | reflexivity].
  - destruct s as [|c s].
    + split; [discriminate | intros [r H]; discriminate].
    + rewrite andb_true_iff, N.eqb_eq, IH. split.
      * intros [-> [r ->]]. exists r; reflexivity.
      * intros [r H]. injection H as -> ->. split; [reflexivity | eauto].
Qed.

Lemma startswith_app (s p t : str) :
  startswith s p = true -> startswith (s ++ t) p = true.
Proof.
  rewrite !startswith_spec. intros [r ->]. exists (r ++ t).
  now rewrite app_assoc.
Qed.

Lemma startswith_length (s p : str) :
  startswith s p = true -> length p <= length s.
Proof.
  rewrite startswith_spec. intros [r ->]. rewrite length_app. lia.
Qed.

Lemma startswith_short (s p : str) :
  length s < length p -> startswith s p = false.
Proof.
  intros H. destruct (startswith s p) eqn:E; [|reflexivity].
  apply startswith_length in E. lia.
Qed.

(** *** [split] *)

Lemma pieces_skip sep ms k c s :
  pieces sep ms (S k) (c :: s) = pieces sep ms k s.
Proof. reflexivity. Qed.

Lemma pieces_cut sep ms c s :
  may_split ms && startswith (c :: s) sep = true ->
  pieces sep ms 0 (c :: s) = [] :: pieces sep (one_less ms) (length sep - 1) s.
Proof.
  intros H. unfold pieces. cbn [split_aux]. rewrite H.
  now destruct (split_aux sep (one_less ms) (length sep - 1) s).
Qed.

Lemma pieces_keep sep ms c s :
  may_split ms && startswith (c :: s) sep = false ->
  exists h t, pieces sep ms 0 s = h :: t /\
              pieces sep ms 0 (c :: s) = (c :: h) :: t.
Proof.
  intros H. unfold pieces. cbn [split_aux]. rewrite H.
  destruct (split_aux sep ms 0 s) as [h t]. eauto.
Qed.

Lemma pieces_nonempty sep ms k s : pieces sep ms k s <> [].
Proof. unfold pieces. now destruct (split_aux sep ms k s). Qed.

Lemma pieces_pass sep ms (a r : str) :
  pieces sep ms (length a) (a ++ r) = pieces sep ms 0 r.
Proof. induction a as [|c a IH]; [reflexivity | exact IH]. Qed.

Lemma pieces_cut_app p ps ms (r : str) :
  may_split ms = true ->
  pieces (p :: ps) ms 0 ((p :: ps) ++ r)
  = [] :: pieces (p :: ps) (one_less ms) 0 r.
Proof.
  intros Hm. change ((p :: ps) ++ r) with (p :: (ps ++ r)).
  rewrite pieces_cut.
  - replace (length (p :: ps) - 1) with (length ps) by (cbn; lia).
    now rewrite pieces_pass.
  - rewrite Hm. cbn [andb]. apply startswith_spec. now exists r.
Qed.

(** [sep.join(s.split(sep)) == s], whatever [maxsplit]. *)
Lemma join_pieces sep (s : str) : sep <> [] -> forall ms k,
  k <= length s -> join sep (pieces sep ms k s) = skipn k s.
Proof.
  intros Hsep.
  induction s as [|c s IH]; intros ms k Hk.
  - cbn in Hk. now replace k with 0 by lia.
  - destruct k as [|k].
    + destruct (may_split ms && startswith (c :: s) sep) eqn:E.
      * rewrite (pieces_cut _ _ _ _ E).
        apply andb_true_iff in E as [_ E].
        apply startswith_spec in E as [r E].
        destruct sep as [|p ps]; [congruence|].
        injection E as -> ->.
        replace (length (p :: ps) - 1) with (length ps) by (cbn; lia).
        specialize (IH (one_less ms) (length ps)).
        destruct (pieces (p :: ps) (one_less ms) (length ps) (ps ++ r))
          as [|x l] eqn:Ep.
        { exfalso. revert Ep. apply pieces_nonempty. }
        assert (Hx : join (p :: ps) (x :: l) = r).
        { rewrite IH by (rewrite length_app; lia).
          rewrite skipn_app, skipn_all, Nat.sub_diag. reflexivity. }
        cbn [skipn]. change (join (p :: ps) ([] :: x :: l))
          with ((p :: ps) ++ join (p :: ps) (x :: l)).
        rewrite Hx. reflexivity.
      * destruct (pieces_keep _ _ _ _ E) as (h & t & H1 & H2).
        rewrite H2. specialize (IH ms 0 (Nat.le_0_l _)).
        rewrite H1 in IH. cbn [skipn] in *.
        destruct t; cbn [join] in *; rewrite <- IH; reflexivity.
    + rewrite pieces_skip. cbn [skipn]. apply IH. cbn in Hk. lia.
Qed.

Lemma join_split (s sep : str) : sep <> [] -> join sep (split s sep) = s.
Proof. intros H. unfold split. now rewrite join_pieces by (auto; lia). Qed.

(** A string too short to hold the separator is one piece. *)
Lemma pieces_short sep ms (s : str) :
  length s < length sep -> pieces sep ms 0 s = [s].
Proof.
  induction s as [|c s IH]; intros Hl; [reflexivity|].
  destruct (pieces_keep sep ms c s) as (h & t & H1 & H2).
  { rewrite startswith_short by exact Hl. apply andb_false_r. }
  rewrite IH in H1 by (cbn in Hl; lia). injection H1 as <- <-. exact H2.
Qed.

(** Text added at the end changes the last piece only. *)
Lemma pieces_app sep (s t : str) : forall k,
  k <= length s ->
  pieces sep None k (s ++ t)
  = removelast (pieces sep None k s)
    ++ pieces sep None 0 (last (pieces sep None k s) [] ++ t).
Proof.
  induction s as [|c s IH]; intros k Hk.
  - cbn in Hk. replace k with 0 by lia. reflexivity.
  - destruct k as [|k].
    2:{ cbn [app]. rewrite !pieces_skip. apply IH. cbn in Hk. lia. }
    destruct (startswith (c :: s) sep) eqn:E.
    + pose proof (startswith_length _ _ E) as Hl. cbn [length] in Hl.
      cbn [app]. rewrite !pieces_cut by (cbn [may_split andb];
        first [exact E | apply (startswith_app (c :: s) sep t E)]).
      cbn [one_less option_map]. rewrite IH by lia.
      pose proof (pieces_nonempty sep None (length sep - 1) s) as Hn.
      destruct (pieces sep None (length sep - 1) s) as [|x l]; [congruence|].
      reflexivity.
    + destruct (startswith ((c :: s) ++ t) sep) eqn:E'.
      * assert (Hl : length (c :: s) < length sep).
        { destruct (Nat.lt_ge_cases (length (c :: s)) (length sep)) as [H|H];
            [exact H | exfalso].
          apply startswith_spec in E' as [r E'].
          assert (Hp : firstn (length sep) ((c :: s) ++ t) = sep)
            by (rewrite E'; now rewrite firstn_app, firstn_all, Nat.sub_diag,
                  firstn_O, app_nil_r).
          rewrite firstn_app in Hp.
          replace (length sep - length (c :: s)) with 0 in Hp by lia.
          rewrite firstn_O, app_nil_r in Hp.
          assert (startswith (c :: s) sep = true); [|congruence].
          apply startswith_spec. exists (skipn (length sep) (c :: s)).
          rewrite <- Hp at 1. now rewrite firstn_skipn. }
        rewrite (pieces_short sep None (c :: s) Hl). reflexivity.
      * destruct (pieces_keep sep None c (s ++ t)) as (h & u & H1 & H2);
          [exact E'|].
        destruct (pieces_keep sep None c s) as (h' & u' & H1' & H2');
          [exact E|].
        cbn [app]. rewrite H2, H2'. rewrite IH, H1' in H1 by lia.
        destruct u' as [|y u'].
        -- cbn [removelast last app] in *.
           destruct (pieces_keep sep None c (h' ++ t)) as (h2 & u2 & H3 & H4).
           { assert (s = h') as <-; [|exact E'].
             assert (Hsep : sep <> []) by (intros ->; discriminate).
             pose proof (join_pieces sep s Hsep None 0 (Nat.le_0_l _)) as J.
             rewrite H1' in J. exact (eq_sym J). }
           rewrite H4. rewrite H3 in H1. now injection H1 as -> ->.
        -- change (removelast ((c :: h') :: y :: u'))
             with ((c :: h') :: removelast (y :: u')).
           change (last ((c :: h') :: y :: u') [])
             with (last (y :: u') []).
           change (removelast (h' :: y :: u'))
             with (h' :: removelast (y :: u')) in H1.
           change (last (h' :: y :: u') []) with (last (y :: u') []) in H1.
           rewrite <- app_comm_cons in H1. injection H1 as <- <-.
           reflexivity.
Qed.

(** *** Occurrences *)

Lemma occurrence_none_cons (c : char) (s sub : str) :
  occurrence (c :: s) sub = None <->
  startswith (c :: s) sub = false /\ occurrence s sub = None.
Proof.
  cbn [occurrence]. destruct (startswith (c :: s) sub).
  - split; [discriminate | intros [H _]; discriminate].
  - destruct (occurrence s sub); cbn; split; try tauto; try discriminate.
    intros [_ H]; discriminate.
Qed.

Lemma contains_false (s sub : str) :
  contains s sub = false <-> occurrence s sub = None.
Proof.
  unfold contains. destruct (occurrence s sub); split; congruence.
Qed.

(** A string in which the separator does not occur is one piece. *)
Lemma pieces_no_occurrence sep ms (s : str) :
  occurrence s sep = None -> pieces sep ms 0 s = [s].
Proof.
  induction s as [|c s IH]; intros H; [reflexivity|].
  apply occurrence_none_cons in H as [H1 H2].
  destruct (pieces_keep sep ms c s) as (h & t & H3 & H4).
  { rewrite H1. apply andb_false_r. }
  rewrite IH in H3 by exact H2. injection H3 as <- <-. exact H4.
Qed.

Lemma one_piece_no_occurrence sep (s : str) :
  sep <> [] -> pieces sep None 0 s = [s] -> occurrence s sep = None.
Proof.
  intros Hsep. induction s as [|c s IH]; intros H.
  - destruct sep; [congruence | reflexivity].
  - destruct (startswith (c :: s) sep) eqn:E.
    + rewrite pieces_cut in H by (cbn [may_split andb]; exact E).
      discriminate.
    + destruct (pieces_keep sep None c s) as (h & t & H3 & H4); [exact E|].
      rewrite H4 in H. injection H as -> ->.
      apply occurrence_none_cons. auto.
Qed.

(** The last piece of a split holds no separator. *)
Lemma last_piece_whole (s sep : str) :
  split (last (split s sep) []) sep = [last (split s sep) []].
Proof.
  unfold split.
  pose proof (pieces_app sep s [] 0 (Nat.le_0_l _)) as H.
  rewrite !app_nil_r in H.
  rewrite (app_removelast_last (l := pieces sep None 0 s) []
             (pieces_nonempty sep None 0 s)) in H at 1.
  now apply app_inv_head in H.
Qed.

Lemma last_piece_clean (s sep : str) :
  sep <> [] -> contains (last (split s sep) []) sep = false.
Proof.
  intros Hsep. apply contains_false, one_piece_no_occurrence; [exact Hsep|].
  apply last_piece_whole.
Qed.

Lemma occurrence_nil (sub : str) : sub <> [] -> occurrence [] sub = None.
Proof. destruct sub; [congruence | reflexivity]. Qed.

(** An occurrence that starts before a character foreign to the pattern ends
    before it. *)
Lemma startswith_through (p u v : str) (c : char) :
  ~ In c p -> startswith (u ++ c :: v) p = true -> startswith u p = true.
Proof.
  revert u; induction p as [|a p IH]; intros u Hc H; [reflexivity|].
  destruct u as [|x u]; cbn in H |- *.
  - apply andb_true_iff in H as [H _]. apply N.eqb_eq in H.
    exfalso. apply Hc. now left.
  - apply andb_true_iff in H as [H1 H2]. rewrite H1. cbn.
    apply IH; [|exact H2]. intros Hin. apply Hc. now right.
Qed.

Lemma startswith_foreign (p v : str) (c : char) :
  p <> [] -> ~ In c p -> startswith (c :: v) p = false.
Proof.
  intros Hp Hc. destruct (startswith (c :: v) p) eqn:E; [|reflexivity].
  apply (startswith_through p [] v c Hc) in E.
  destruct p; [congruence | discriminate].
Qed.

Lemma occurrence_none_through (sep u v : str) (c : char) :
  sep <> [] -> ~ In c sep ->
  occurrence u sep = None -> occurrence v sep = None ->
  occurrence (u ++ c :: v) sep = None.
Proof.
  intros Hsep Hc Hu Hv. induction u as [|x u IH].
  - apply occurrence_none_cons. split; [|exact Hv].
    now apply startswith_foreign.
  - apply occurrence_none_cons in Hu as [H1 H2].
    cbn [app]. apply occurrence_none_cons. split; [|auto].
    destruct (startswith (x :: u ++ c :: v) sep) eqn:E; [|reflexivity].
    apply (startswith_through sep (x :: u) v c Hc) in E. congruence.
Qed.

(** Up to a character foreign to the separator, a string without the
    separator stays in the first piece. *)
Lemma pieces_through sep ms (u v : str) (c : char) :
  sep <> [] -> ~ In c sep -> occurrence u sep = None ->
  exists h t, pieces sep ms 0 v = h :: t /\
              pieces sep ms 0 (u ++ c :: v) = (u ++ c :: h) :: t.
Proof.
  intros Hsep Hc Hu. induction u as [|x u IH].
  - apply pieces_keep. rewrite startswith_foreign by assumption.
    apply andb_false_r.
  - apply occurrence_none_cons in Hu as [H1 H2].
    destruct (IH H2) as (h & t & H3 & H4).
    destruct (pieces_keep sep ms x (u ++ c :: v)) as (h' & t' & H5 & H6).
    { destruct (startswith (x :: u ++ c :: v) sep) eqn:E;
        [|apply andb_false_r].
      apply (startswith_through sep (x :: u) v c Hc) in E. congruence. }
    exists h, t. split; [exact H3|].
    cbn [app]. rewrite H6. rewrite H4 in H5. now injection H5 as <- <-.
Qed.

(** With no split left the rest is one piece. *)
Lemma pieces_no_more sep ms (s : str) :
  may_split ms = false -> pieces sep ms 0 s = [s].
Proof.
  intros Hm. induction s as [|c s IH]; [reflexivity|].
  destruct (pieces_keep sep ms c s) as (h & t & H1 & H2).
  { now rewrite Hm. }
  rewrite IH in H1. now injection H1 as <- <-.
Qed.

(** *** Words *)

Lemma split_ws_aux_word (w : str) :
  no_space w = true -> split_ws_aux w = (w, []).
Proof.
  induction w as [|c w IH]; intros H; [reflexivity|].
  cbn in H. apply andb_true_iff in H as [H1 H2].
  cbn [split_ws_aux]. rewrite (IH H2).
  apply negb_true_iff in H1. now rewrite H1.
Qed.

Lemma split_ws_aux_space (c : char) (s : str) :
  isspace c = true -> split_ws_aux (c :: s) = ([], split_ws s).
Proof.
  intros H. cbn [split_ws_aux]. unfold split_ws.
  destruct (split_ws_aux s). now rewrite H.
Qed.

Lemma split_ws_aux_app (w : str) (c : char) (s : str) :
  no_space w = true -> isspace c = true ->
  split_ws_aux (w ++ c :: s) = (w, split_ws s).
Proof.
  intros Hw Hc. induction w as [|x w IH].
  - now apply split_ws_aux_space.
  - cbn in Hw. apply andb_true_iff in Hw as [H1 H2].
    cbn [app split_ws_aux]. rewrite (IH H2).
    apply negb_true_iff in H1. now rewrite H1.
Qed.

(** The first word of a string that starts with a word and a space. *)
Lemma split_ws_word (w : str) (c : char) (s : str) :
  w <> [] -> no_space w = true -> isspace c = true ->
  split_ws (w ++ c :: s) = w :: split_ws s.
Proof.
  intros Hn Hw Hc. unfold split_ws at 1.
  rewrite split_ws_aux_app by assumption.
  destruct w; [congruence | reflexivity].
Qed.

(** ** The monad *)

Lemma bind_ret {A B} (a : A) (f : A -> M B) : bind (ret a) f = f a.
Proof. unfold bind, ret. now destruct (f a). Qed.

(** ** UTF-8 *)

Lemma decode_step_length (bs : list N) c rest :
  decode_step bs = Some (c, rest) -> length rest < length bs.
Proof.
  unfold decode_step. intros H.
  repeat match type of H with
         | match ?l with [] => _ | _ :: _ => _ end = _ =>
           destruct l; [discriminate H|]
         | (if ?b then _ else _) = _ => destruct b
         | None = Some _ => discriminate H
         | Some _ = Some _ => injection H as <- <-; cbn [length]; lia
         end.
Qed.

Lemma decode_step_app (bs more : list N) c rest :
  decode_step bs = Some (c, rest) ->
  decode_step (bs ++ more) = Some (c, rest ++ more).
Proof.
  unfold decode_step. intros H.
  repeat match type of H with
         | match ?l with [] => _ | _ :: _ => _ end = _ =>
           destruct l; [discriminate H|]; cbn [app]
         | (if ?b then _ else _) = _ => destruct b
         | None = Some _ => discriminate H
         | Some _ = Some _ => injection H as <- <-; reflexivity
         end.
Qed.

(** More fuel does not change what has been decoded. *)
Lemma decode_all_more (fuel : nat) : forall fuel' bs text,
  decode_all fuel bs = Some text -> fuel <= fuel' ->
  decode_all fuel' bs = Some text.
Proof.
  induction fuel as [|fuel IH]; intros fuel' bs text H Hle.
  - destruct bs; [|discriminate H]. destruct fuel'; exact H.
  - destruct bs as [|b bs]; [destruct fuel'; exact H|].
    destruct fuel' as [|fuel']; [lia|]. cbn [decode_all] in H |- *.
    destruct (decode_step (b :: bs)) as [[c rest]|]; [|discriminate H].
    destruct (decode_all fuel rest) as [t|] eqn:E; [|discriminate H].
    rewrite (IH fuel' rest t E) by lia. exact H.
Qed.

(** The length of the bytes is fuel enough: more never succeeds where it
    fails. *)
Lemma decode_all_enough (fuel : nat) : forall bs,
  length bs <= fuel -> decode_all fuel bs = utf8_decode bs.
Proof.
  unfold utf8_decode.
  assert (G : forall n m l, length l <= n -> n <= m ->
                decode_all n l = decode_all m l).
  { induction n as [|n IHn]; intros m l Hl Hm.
    - destruct l; [destruct m; reflexivity | cbn [length] in Hl; lia].
    - destruct l as [|x l]; [destruct m; reflexivity|].
      destruct m as [|m]; [lia|]. cbn [decode_all].
      destruct (decode_step (x :: l)) as [[c r]|] eqn:Es; [|reflexivity].
      apply decode_step_length in Es. cbn [length] in Hl, Es.
      rewrite (IHn m r) by lia. reflexivity. }
  intros bs Hle. symmetry. now apply G.
Qed.

Lemma decode_all_app (fuel1 : nat) : forall fuel2 bs1 bs2 text1 text2,
  decode_all fuel1 bs1 = Some text1 ->
  decode_all fuel2 bs2 = Some text2 ->
  decode_all (fuel1 + fuel2) (bs1 ++ bs2) = Some (text1 ++ text2).
Proof.
  induction fuel1 as [|fuel1 IH]; intros fuel2 bs1 bs2 text1 text2 H1 H2.
  - destruct bs1; [|discriminate H1]. injection H1 as <-. exact H2.
  - destruct bs1 as [|b bs1].
    + injection H1 as <-. apply (decode_all_more fuel2); [exact H2 | lia].
    + cbn [decode_all app plus] in H1 |- *.
      destruct (decode_step (b :: bs1)) as [[c rest]|] eqn:E;
        [|discriminate H1].
      change (b :: bs1 ++ bs2) with ((b :: bs1) ++ bs2).
      rewrite (decode_step_app _ bs2 _ _ E).
      destruct (decode_all fuel1 rest) as [t|] eqn:E1; [|discriminate H1].
      injection H1 as <-.
      now rewrite (IH fuel2 rest bs2 t text2 E1 H2).
Qed.

(** Bytes that decode piece by piece decode as a whole, to the pieces put
    together. *)
Lemma utf8_decode_app (bs1 bs2 : list N) (text1 text2 : str) :
  utf8_decode bs1 = Some text1 -> utf8_decode bs2 = Some text2 ->
  utf8_decode (bs1 ++ bs2) = Some (text1 ++ text2).
Proof.
  unfold utf8_decode. intros H1 H2. rewrite length_app.
  now apply decode_all_app.
Qed.

Lemma utf8_decode_concat (reads : list (list N)) (texts : list str) :
  Forall2 (fun bs text => utf8_decode bs = Some text) reads texts ->
  utf8_decode (concat reads) = Some (concat texts).
Proof.
  induction 1 as [|bs text reads texts H _ IH]; [reflexivity|].
  cbn [concat]. now apply utf8_decode_app.
Qed.

Lemma decoded_reads (reads : list (list N)) :
  Forall (fun bs => utf8_decode bs <> None) reads ->
  exists texts, Forall2 (fun bs text => utf8_decode bs = Some text) reads texts.
Proof.
  induction 1 as [|bs reads H _ [texts IH]]; [exists []; constructor|].
  destruct (utf8_decode bs) as [text|] eqn:E; [|congruence].
  exists (text :: texts). now constructor.
Qed.




(** ** The framing step *)

Lemma join_lines (sep : str) (lines : list str) (rest : str) :
  join sep (lines ++ [rest]) = concat (map (fun l => l ++ sep) lines) ++ rest.
Proof.
  induction lines as [|l lines IH]; [reflexivity|].
  cbn [app map concat]. rewrite <- app_assoc, <- app_assoc, <- IH.
  destruct lines; reflexivity.
Qed.

Lemma feed_pieces (chunks : list str) : forall buffer,
  split buffer crlf = [buffer] ->
  let (lines, rest) := feed buffer chunks in
  lines ++ [rest] = split (buffer ++ concat chunks) crlf.
Proof.
  induction chunks as [|chunk chunks IH]; intros buffer Hb.
  - cbn. now rewrite app_nil_r, Hb.
  - cbn [feed concat]. unfold frame.
    specialize (IH (last (split (buffer ++ chunk) crlf) [])
                  (last_piece_whole _ _)).
    destruct (feed (last (split (buffer ++ chunk) crlf) []) chunks)
      as [lines rest].
    rewrite <- app_assoc, IH, app_assoc. unfold split.
    now rewrite (pieces_app crlf (buffer ++ chunk) (concat chunks) 0
                   (Nat.le_0_l _)).
Qed.

(** Over decoded text.  However a text is cut into chunks, the lines yielded
    and the buffer left are the pieces of the whole text between its CRLF
    terminators; so the lines, each with its terminator put back, followed by
    the buffer, are the text again.  In particular a terminator cut between
    two chunks ends one line, as an uncut one does. *)
Lemma feed_is_transparent (chunks : list str) :
  (let (lines, rest) := feed [] chunks in
   concat (map (fun l => l ++ crlf) lines) ++ rest = concat chunks
   /\ lines ++ [rest] = split (concat chunks) crlf)
  /\ forall x y : str,
       feed [] [x ++ [13%N]; 10%N :: y] = feed [] [x ++ crlf ++ y].
Proof.
  assert (Hall : forall cs,
             let (lines, rest) := feed [] cs in
             lines ++ [rest] = split (concat cs) crlf).
  { intros cs. apply (feed_pieces cs []). reflexivity. }
  split.
  - specialize (Hall chunks). destruct (feed [] chunks) as [lines rest].
    split; [|exact Hall].
    rewrite <- join_lines, Hall. apply join_split. discriminate.
  - intros x y.
    pose proof (Hall [x ++ [13%N]; 10%N :: y]) as H1.
    pose proof (Hall [x ++ crlf ++ y]) as H2.
    destruct (feed [] [x ++ [13%N]; 10%N :: y]) as [l1 r1].
    destruct (feed [] [x ++ crlf ++ y]) as [l2 r2].
    assert (E : l1 ++ [r1] = l2 ++ [r2]).
    { rewrite H1, H2. f_equal. cbn [concat]. rewrite !app_nil_r.
      unfold crlf. now rewrite <- !app_assoc. }
    apply app_inj_tail in E as [-> ->]. reflexivity.
Qed.

(** Reads that decode are framed as their texts are. *)
Lemma feed_bytes_decoded (reads : list (list N)) (texts : list str) :
  Forall2 (fun bs text => utf8_decode bs = Some text) reads texts ->
  forall buffer, feed_bytes buffer reads = feed buffer texts.
Proof.
  induction 1 as [|bs text reads texts H _ IH]; intros buffer; [reflexivity|].
  cbn [feed_bytes feed]. rewrite H.
  destruct (frame buffer text) as [lines buffer']. now rewrite IH.
Qed.

Lemma recv_bytes_decoded (reads : list (list N)) (texts : list str) :
  Forall2 (fun bs text => utf8_decode bs = Some text) reads texts ->
  map recv_bytes reads = map Chunk texts.
Proof.
  induction 1 as [|bs text reads texts H _ IH]; [reflexivity|].
  cbn [map]. unfold recv_bytes at 1. now rewrite H, IH.
Qed.

(** The texts of reads that decode are the text of all their bytes. *)
Lemma decoded_whole (reads : list (list N)) (texts : list str) (text : str) :
  Forall2 (fun bs text => utf8_decode bs = Some text) reads texts ->
  utf8_decode (concat reads) = Some text ->
  concat texts = text.
Proof.
  intros H Hw. apply utf8_decode_concat in H. congruence.
Qed.

(** ** Dispatch of a line *)

Lemma privmsg_line_shape (origin target text : str) :
  privmsg_line origin target text
  = (58%N :: origin)
    ++ 32%N :: lit "PRIVMSG" ++ 32%N :: target ++ 32%N :: 58%N :: text.
Proof.
  unfold privmsg_line.
  change (lit ":") with [58%N].
  change (lit " PRIVMSG ") with ([32%N] ++ lit "PRIVMSG" ++ [32%N]).
  change (lit " :") with [32%N; 58%N].
  cbn [app]. rewrite <- !app_assoc. reflexivity.
Qed.

Lemma target_of_privmsg_line (origin target text : str) :
  no_space origin = true -> target <> [] -> no_space target = true ->
  target_of (privmsg_line origin target text) = ret target.
Proof.
  intros Ho Hn Ht. unfold target_of. rewrite privmsg_line_shape.
  rewrite split_ws_word; [|discriminate|cbn; exact Ho|reflexivity].
  rewrite split_ws_word; [|discriminate|reflexivity|reflexivity].
  rewrite split_ws_word; [|exact Hn|exact Ht|reflexivity].
  reflexivity.
Qed.

Lemma not_in_PRIVMSG (c : char) :
  c = 32%N \/ c = 58%N -> ~ In c (lit "PRIVMSG").
Proof. intros [-> | ->]; cbn; intuition discriminate. Qed.

Lemma message_of_privmsg_line (origin target text : str) :
  contains origin (lit "PRIVMSG") = false ->
  contains target (lit "PRIVMSG") = false ->
  contains target (lit ":") = false ->
  contains text (lit "PRIVMSG") = false ->
  message_of (privmsg_line origin target text) = ret (strip text).
Proof.
  rewrite !contains_false. intros Ho Ht Hc Hx.
  assert (Hsep : lit "PRIVMSG" <> []) by discriminate.
  assert (H32 : ~ In 32%N (lit "PRIVMSG")) by (apply not_in_PRIVMSG; auto).
  set (rest := 32%N :: target ++ 32%N :: 58%N :: text).
  assert (Hrest : occurrence rest (lit "PRIVMSG") = None).
  { apply (occurrence_none_through _ [] _ 32%N); auto.
    apply occurrence_none_through; auto.
    apply occurrence_none_cons. split; [reflexivity | exact Hx]. }
  assert (Hsplit : split (privmsg_line origin target text) (lit "PRIVMSG")
                   = [(58%N :: origin) ++ [32%N]; rest]).
  { rewrite privmsg_line_shape. unfold split.
    destruct (pieces_through (lit "PRIVMSG") None (58%N :: origin)
                (lit "PRIVMSG" ++ rest) 32%N Hsep H32)
      as (h & t & H1 & H2).
    { apply occurrence_none_cons. split; [reflexivity | exact Ho]. }
    change (pieces (lit "PRIVMSG") None 0
              ((58%N :: origin) ++ 32%N :: lit "PRIVMSG" ++ rest)
            = [(58%N :: origin) ++ [32%N]; rest]).
    etransitivity; [exact H2|].
    change (lit "PRIVMSG") with (80%N :: lit "RIVMSG") in H1 at 1 2.
    rewrite pieces_cut_app in H1 by reflexivity.
    change (80%N :: lit "RIVMSG") with (lit "PRIVMSG") in H1.
    cbn [one_less option_map] in H1.
    rewrite (pieces_no_occurrence _ _ _ Hrest) in H1.
    now injection H1 as <- <-. }
  assert (Hcolon : split_max rest (lit ":") 1 = [32%N :: target ++ [32%N]; text]).
  { unfold split_max, rest. change (lit ":") with [58%N].
    destruct (pieces_through [58%N] (Some 1) (32%N :: target)
                (58%N :: text) 32%N)
      as (h & t & H1 & H2).
    - discriminate.
    - cbn; intuition discriminate.
    - apply occurrence_none_cons. split; [reflexivity | exact Hc].
    - change (58%N :: text) with ([58%N] ++ text) in H1.
      rewrite pieces_cut_app in H1 by reflexivity.
      rewrite pieces_no_more in H1 by reflexivity.
      injection H1 as <- <-.
      change ((32%N :: target) ++ 32%N :: 58%N :: text)
        with (32%N :: target ++ 32%N :: 58%N :: text) in H2.
      exact H2. }
  unfold message_of. rewrite Hsplit. cbn [index nth_error].
  rewrite bind_ret, Hcolon. cbn [index nth_error]. now rewrite bind_ret.
Qed.

Lemma occurrence_startswith (s sub : str) :
  startswith s sub = true -> occurrence s sub = Some 0.
Proof. intros H. destruct s; cbn [occurrence]; now rewrite H. Qed.

Lemma contains_app (u sep v : str) : contains (u ++ sep ++ v) sep = true.
Proof.
  unfold contains. induction u as [|x u IH].
  - rewrite occurrence_startswith; [reflexivity|].
    apply startswith_spec. now exists v.
  - cbn [app occurrence]. destruct (startswith _ _); [reflexivity|].
    destruct (occurrence (u ++ sep ++ v) sep); [reflexivity | discriminate].
Qed.

Lemma contains_privmsg_line (origin target text : str) :
  contains (privmsg_line origin target text) (lit "PRIVMSG") = true.
Proof.
  rewrite privmsg_line_shape.
  replace ((58%N :: origin) ++ 32%N :: lit "PRIVMSG"
             ++ 32%N :: target ++ 32%N :: 58%N :: text)
    with (((58%N :: origin) ++ [32%N]) ++ lit "PRIVMSG"
             ++ 32%N :: target ++ 32%N :: 58%N :: text)
    by (now rewrite <- app_assoc).
  apply contains_app.
Qed.

(** What the dispatch does with a well-formed channel-message line: the
    target decides, and nothing else, whether the commands are looked at. *)
Lemma process_privmsg_line self get_weather (origin target text : str) :
  no_space origin = true -> target <> [] -> no_space target = true ->
  process_line self get_weather (privmsg_line origin target text)
  = if mem target (channels self)
    then bind (message_of (privmsg_line origin target text))
              (handle_command get_weather target)
    else ret tt.
Proof.
  intros Ho Hn Ht. unfold process_line.
  replace (handle_ping (privmsg_line origin target text)) with (ret tt)
    by (rewrite privmsg_line_shape; reflexivity).
  rewrite bind_ret. unfold handle_privmsg.
  rewrite contains_privmsg_line.
  rewrite target_of_privmsg_line by assumption.
  now rewrite bind_ret.
Qed.

(** C8.  A channel message [:origin PRIVMSG target :text] goes to the
    command handling when, and only when, its target is one of the configured
    channels; when it is not (a private message to the bot's nickname, for
    one), the line gives no reply, no weather lookup and no error. *)
Theorem privmsg_routed_by_channel_membership
    self get_weather (origin target text : str) :
  no_space origin = true -> target <> [] -> no_space target = true ->
  process_line self get_weather (privmsg_line origin target text)
  = (if mem target (channels self)
     then bind (message_of (privmsg_line origin target text))
               (handle_command get_weather target)
     else ret tt)
  /\ (mem target (channels self) = false ->
      process_line self get_weather (privmsg_line origin target text)
      = ([], inr tt)).
Proof.
  intros Ho Hn Ht.
  pose proof (process_privmsg_line self get_weather origin target text
                Ho Hn Ht) as H.
  split; [exact H|]. intros Hm. now rewrite H, Hm.
Qed.

(** A private message to the bot itself, [!help] sent to [WeatherBot]. *)
Lemma privmsg_routed_by_channel_membership_witness :
  process_line WeatherBot_init (fun city => city)
    (privmsg_line (lit "nick!user@host") (nickname WeatherBot_init)
       (lit "!help"))
  = ([], inr tt).
Proof.
  apply (privmsg_routed_by_channel_membership WeatherBot_init
           (fun city => city)
           (lit "nick!user@host") (nickname WeatherBot_init) (lit "!help"));
    [reflexivity | discriminate | reflexivity | reflexivity].
Defined.

(** *** [strip] *)

Lemma strip_trimmed (s : str) : trimmed s = true -> strip s = s.
Proof.
  destruct s as [|c s]; [reflexivity|]. intros H.
  cbn [trimmed] in H. apply andb_true_iff in H as [H1 H2].
  apply negb_true_iff in H1, H2.
  unfold strip, rstrip. cbn [lstrip]. rewrite H1.
  destruct (exists_last (l := c :: s)) as (l & a & E); [discriminate|].
  rewrite E in H2 |- *. rewrite last_last in H2.
  rewrite rev_unit. cbn [lstrip]. rewrite H2.
  cbn [rev]. now rewrite rev_involutive.
Qed.

(** C3 (amended).  For a line [:origin PRIVMSG target :text] in which
    [PRIVMSG] occurs neither in the origin, nor in the target, nor in the
    text, and the target holds no colon, the dispatch takes the target as it
    is and, as the message, the text without the whitespace at its two ends
    (the text itself when it has none there; what lies inside is kept); for a
    configured channel it hands exactly these two to the command handling.
    A line in which [PRIVMSG] does not occur is never taken for a channel
    message. *)
Theorem privmsg_target_and_text
    self get_weather (origin target text : str) :
  no_space origin = true -> target <> [] -> no_space target = true ->
  contains origin (lit "PRIVMSG") = false ->
  contains target (lit "PRIVMSG") = false ->
  contains target (lit ":") = false ->
  contains text (lit "PRIVMSG") = false ->
  target_of (privmsg_line origin target text) = ret target
  /\ message_of (privmsg_line origin target text) = ret (strip text)
  /\ (trimmed text = true -> strip text = text)
  /\ (mem target (channels self) = true ->
      process_line self get_weather (privmsg_line origin target text)
      = handle_command get_weather target (strip text))
  /\ (forall line, contains line (lit "PRIVMSG") = false ->
      handle_privmsg self get_weather line = ret tt).
Proof.
  intros Ho Hn Ht Hop Htp Htc Hxp.
  pose proof (message_of_privmsg_line origin target text Hop Htp Htc Hxp)
    as Hmsg.
  repeat split.
  - now apply target_of_privmsg_line.
  - exact Hmsg.
  - apply strip_trimmed.
  - intros Hm. rewrite process_privmsg_line by assumption.
    now rewrite Hm, Hmsg, bind_ret.
  - intros line Hl. unfold handle_privmsg. now rewrite Hl.
Qed.

(** [:nick!user@host PRIVMSG #help :hello  wide world] *)
Lemma privmsg_target_and_text_witness :
  target_of (privmsg_line (lit "nick!user@host") (lit "#help")
               (lit "hello  wide world"))
  = ret (lit "#help")
  /\ message_of (privmsg_line (lit "nick!user@host") (lit "#help")
                   (lit "hello  wide world"))
     = ret (lit "hello  wide world").
Proof.
  destruct (privmsg_target_and_text WeatherBot_init (fun city => city)
              (lit "nick!user@host") (lit "#help") (lit "hello  wide world"))
    as (H1 & H2 & H3 & _);
    [reflexivity | discriminate | reflexivity | reflexivity | reflexivity
    | reflexivity | reflexivity |].
  split; [exact H1|]. rewrite H2, H3 by reflexivity. reflexivity.
Defined.

(** C3, as stated, fails.  A text that holds the word [PRIVMSG] is cut
    before it; whitespace at the ends of a text is dropped; and a line with
    another command ([NOTICE]) in whose text [PRIVMSG] occurs is answered as
    a channel message. *)
Lemma privmsg_target_and_text_counterexample :
  message_of (privmsg_line (lit "nick!user@host") (lit "#help")
                (lit "say PRIVMSG now"))
  = ret (lit "say")
  /\ message_of (privmsg_line (lit "nick!user@host") (lit "#help")
                   (lit "say PRIVMSG now"))
     <> ret (lit "say PRIVMSG now")
  /\ message_of (privmsg_line (lit "nick!user@host") (lit "#help")
                   (lit " hi "))
     <> ret (lit " hi ")
  /\ process_line WeatherBot_init (fun city => city)
       (lit ":nick!user@host NOTICE #help :PRIVMSG x :!help")
     = ([Send (lit "PRIVMSG #help :" ++ help_msg)], inr tt).
Proof.
  repeat split; try (vm_compute; reflexivity); vm_compute; discriminate.
Qed.

(** ** The loops *)

Lemma bind_assoc {A B C} (m : M A) (f : A -> M B) (g : B -> M C) :
  bind (bind m f) g = bind m (fun a => bind (f a) g).
Proof.
  destruct m as [tr [e|a]]; [reflexivity|]. cbn [bind].
  destruct (f a) as [tr' [e'|b]]; [reflexivity|]. cbn [bind].
  destruct (g b) as [tr'' r]. now rewrite app_assoc.
Qed.

Lemma for_each_app {A} (l1 l2 : list A) (body : A -> M unit) :
  for_each (l1 ++ l2) body
  = bind (for_each l1 body) (fun _ => for_each l2 body).
Proof.
  induction l1 as [|x l1 IH]; cbn [app for_each].
  - now rewrite bind_ret.
  - rewrite IH. now rewrite bind_assoc.
Qed.

(** A line that raises ends the batch: the lines after it are not looked
    at. *)
Lemma for_each_raises {A} (l1 l2 : list A) (x : A) (body : A -> M unit)
    (tr : list action) (e : exn) :
  body x = (tr, inl e) ->
  for_each (l1 ++ x :: l2) body
  = bind (for_each l1 body) (fun _ => (tr, inl e)).
Proof.
  intros H. rewrite for_each_app. cbn [for_each]. now rewrite H.
Qed.

(** An exception of the dispatch leaves the read loop. *)
Lemma active_loop_raises self get_weather (buffer : str) (r : recv_result)
    (reads : list recv_result) (tr : list action) (e : exn) :
  e <> UnicodeDecodeError ->
  read_dispatch self get_weather buffer r = (tr, inl e) ->
  active_loop self get_weather buffer (r :: reads) = (tr, inl e).
Proof.
  intros He H. cbn [active_loop]. unfold active_turn. rewrite H.
  destruct e; try reflexivity. congruence.
Qed.

(** An exception of a session is followed by the pause and the next
    socket. *)
Lemma run_attempt_raises self get_weather (sock : socket)
    (socks : list socket) (tr : list action) (e : exn) :
  attempt self get_weather sock = (tr, inl e) ->
  run self get_weather (sock :: socks)
  = (tr ++ Sleep reconnect_cooldown :: fst (run self get_weather socks),
     snd (run self get_weather socks)).
Proof.
  intros H. cbn [run]. rewrite H.
  now destruct (run self get_weather socks).
Qed.

Lemma attempt_active_raises self get_weather (sock : socket)
    (reads : list recv_result) (tr1 tr2 : list action) (e : exn) :
  connect self sock = (tr1, inr (ConnectTrue reads)) ->
  active_loop self get_weather [] reads = (tr2, inl e) ->
  attempt self get_weather sock = (tr1 ++ tr2, inl e).
Proof.
  intros H1 H2. unfold attempt. rewrite H1. cbn [bind]. now rewrite H2.
Qed.

Lemma index_short {A} (l : list A) (i : nat) :
  length l <= i -> index l i = raise IndexError.
Proof.
  intros H. unfold index.
  now replace (nth_error l i) with (@None A)
    by (symmetry; now apply nth_error_None).
Qed.

Lemma split_ws_last_word (w : str) :
  w <> [] -> no_space w = true -> split_ws w = [w].
Proof.
  intros Hn Hw. unfold split_ws. rewrite split_ws_aux_word by exact Hw.
  destruct w; [congruence | reflexivity].
Qed.

(** A channel-message line that ends after its target. *)
Lemma process_privmsg_without_text self get_weather (origin target : str) :
  no_space origin = true -> target <> [] -> no_space target = true ->
  contains origin (lit "PRIVMSG") = false ->
  contains target (lit "PRIVMSG") = false ->
  contains target (lit ":") = false ->
  mem target (channels self) = true ->
  process_line self get_weather (lit ":" ++ origin ++ lit " PRIVMSG " ++ target)
  = raise IndexError.
Proof.
  rewrite !contains_false. intros Ho Hn Ht Hop Htp Htc Hm.
  assert (Hsep : lit "PRIVMSG" <> []) by discriminate.
  assert (H32 : ~ In 32%N (lit "PRIVMSG")) by (apply not_in_PRIVMSG; auto).
  assert (Hshape : lit ":" ++ origin ++ lit " PRIVMSG " ++ target
                   = (58%N :: origin) ++ 32%N :: lit "PRIVMSG"
                       ++ 32%N :: target).
  { change (lit ":") with [58%N].
    change (lit " PRIVMSG ") with ([32%N] ++ lit "PRIVMSG" ++ [32%N]).
    cbn [app]. now rewrite <- !app_assoc. }
  rewrite Hshape. unfold process_line.
  change (handle_ping ((58%N :: origin) ++ 32%N :: lit "PRIVMSG"
                         ++ 32%N :: target)) with (ret tt).
  rewrite bind_ret. unfold handle_privmsg.
  replace (contains _ (lit "PRIVMSG")) with true.
  2:{ symmetry.
      replace ((58%N :: origin) ++ 32%N :: lit "PRIVMSG" ++ 32%N :: target)
        with (((58%N :: origin) ++ [32%N]) ++ lit "PRIVMSG"
                ++ 32%N :: target) by (now rewrite <- app_assoc).
      apply contains_app. }
  assert (Htarget : target_of ((58%N :: origin) ++ 32%N :: lit "PRIVMSG"
                                 ++ 32%N :: target) = ret target).
  { unfold target_of.
    rewrite split_ws_word; [|discriminate|cbn; exact Ho|reflexivity].
    rewrite split_ws_word; [|discriminate|reflexivity|reflexivity].
    now rewrite split_ws_last_word. }
  rewrite Htarget, bind_ret, Hm. unfold message_of, split.
  destruct (pieces_through (lit "PRIVMSG") None (58%N :: origin)
              (lit "PRIVMSG" ++ 32%N :: target) 32%N Hsep H32)
    as (h & t & H1 & H2).
  { apply occurrence_none_cons. split; [reflexivity | exact Hop]. }
  etransitivity; [|reflexivity].
  change (lit "PRIVMSG") with (80%N :: lit "RIVMSG") in H1 at 1 2.
  rewrite pieces_cut_app in H1 by reflexivity.
  change (80%N :: lit "RIVMSG") with (lit "PRIVMSG") in H1.
  cbn [one_less option_map] in H1.
  rewrite pieces_no_occurrence in H1.
  2:{ apply occurrence_none_cons. split; [reflexivity | exact Htp]. }
  injection H1 as <- <-.
  replace (pieces (lit "PRIVMSG") None 0
             ((58%N :: origin) ++ 32%N :: lit "PRIVMSG" ++ 32%N :: target))
    with [(58%N :: origin) ++ [32%N]; 32%N :: target]
    by (symmetry; exact H2).
  cbn [index nth_error]. rewrite bind_ret. unfold split_max.
  rewrite pieces_no_occurrence.
  2:{ apply occurrence_none_cons. split; [reflexivity | exact Htc]. }
  reflexivity.
Qed.

(** C1 (amended).  An empty line, and any line that neither starts with
    [PING] nor holds [PRIVMSG], is passed over in silence: no reply, no
    exception, and the rest of the batch is dispatched.  A line that starts
    with [PING] and has no second word, a line that holds [PRIVMSG] and has
    fewer than three words, and a line [:origin PRIVMSG channel] for a
    configured channel without the colon and its text raise [IndexError];
    they get no reply, but for the [PONG] that a line of two words starting
    with [PING] and holding [PRIVMSG], as [PING PRIVMSG], has been given
    before it raises.  The read loop does not catch the exception: the
    lines after it in the batch are not dispatched, the session is left, and
    the outer loop pauses for the cooldown and goes on with a new
    connection. *)
Theorem anomalous_lines self get_weather :
  process_line self get_weather [] = ([], inr tt)
  /\ (forall line,
        startswith line (lit "PING") = false ->
        contains line (lit "PRIVMSG") = false ->
        process_line self get_weather line = ([], inr tt))
  /\ (forall before after,
        for_each (before ++ [] :: after) (process_line self get_weather)
        = for_each (before ++ after) (process_line self get_weather))
  /\ (forall line,
        startswith line (lit "PING") = true ->
        length (split_ws line) < 2 ->
        process_line self get_weather line = ([], inl IndexError))
  /\ (forall line,
        contains line (lit "PRIVMSG") = true ->
        length (split_ws line) < 3 ->
        process_line self get_weather line
        = (if startswith line (lit "PING") then
             match nth_error (split_ws line) 1 with
             | Some token => [Send (lit "PONG " ++ token)]
             | None => []
             end
           else [],
           inl IndexError))
  /\ (forall origin target,
        no_space origin = true -> target <> [] -> no_space target = true ->
        contains origin (lit "PRIVMSG") = false ->
        contains target (lit "PRIVMSG") = false ->
        contains target (lit ":") = false ->
        mem target (channels self) = true ->
        process_line self get_weather
          (lit ":" ++ origin ++ lit " PRIVMSG " ++ target)
        = ([], inl IndexError))
  /\ (forall before line after tr,
        process_line self get_weather line = (tr, inl IndexError) ->
        for_each (before ++ line :: after) (process_line self get_weather)
        = bind (for_each before (process_line self get_weather))
               (fun _ => (tr, inl IndexError)))
  /\ (forall buffer r reads tr,
        read_dispatch self get_weather buffer r = (tr, inl IndexError) ->
        active_loop self get_weather buffer (r :: reads)
        = (tr, inl IndexError))
  /\ (forall sock socks tr,
        attempt self get_weather sock = (tr, inl IndexError) ->
        run self get_weather (sock :: socks)
        = (tr ++ Sleep reconnect_cooldown :: fst (run self get_weather socks),
           snd (run self get_weather socks))).
Proof.
  assert (Hskip : forall line,
             startswith line (lit "PING") = false ->
             contains line (lit "PRIVMSG") = false ->
             process_line self get_weather line = ([], inr tt)).
  { intros line H1 H2. unfold process_line, handle_ping, handle_privmsg.
    now rewrite H1, H2. }
  split; [apply Hskip; reflexivity|].
  split; [exact Hskip|].
  split.
  { intros before after. rewrite !for_each_app. cbn [for_each].
    rewrite (Hskip []) by reflexivity. f_equal.
    change (([], inr tt) : M unit) with (ret tt). now rewrite bind_ret. }
  split.
  { intros line H1 H2. unfold process_line, handle_ping. rewrite H1.
    rewrite index_short by lia. reflexivity. }
  split.
  { intros line H2 H3.
    unfold process_line, handle_ping, handle_privmsg, target_of.
    rewrite H2. destruct (startswith line (lit "PING")).
    - unfold index at 1.
      destruct (nth_error (split_ws line) 1) as [token|]; [|reflexivity].
      cbn [ret bind send emit]. rewrite index_short by lia. reflexivity.
    - rewrite bind_ret, index_short by lia. reflexivity. }
  split.
  { intros origin target. apply process_privmsg_without_text. }
  split.
  { intros before line after tr H.
    exact (for_each_raises before after line _ tr IndexError H). }
  split.
  { intros buffer r reads tr H. apply active_loop_raises; [discriminate|].
    exact H. }
  intros sock socks tr H. now apply (run_attempt_raises _ _ _ _ _ IndexError).
Qed.

(** The bare line [PING], alone and in a batch; the line [PING PRIVMSG]. *)
Lemma anomalous_lines_witness :
  process_line WeatherBot_init (fun city => city) (lit "PING")
  = ([], inl IndexError)
  /\ process_line WeatherBot_init (fun city => city) (lit "PING PRIVMSG")
     = ([Send (lit "PONG PRIVMSG")], inl IndexError)
  /\ for_each [lit "PING"; lit "PING :abc"]
       (process_line WeatherBot_init (fun city => city))
     = ([], inl IndexError)
  /\ for_each [[]; lit "PING :abc"]
       (process_line WeatherBot_init (fun city => city))
     = ([Send (lit "PONG :abc")], inr tt).
Proof.
  destruct (anomalous_lines WeatherBot_init (fun city => city))
    as (_ & _ & H3 & H4 & H5 & _ & H7 & _).
  split; [apply H4; [reflexivity | cbn; lia]|].
  split; [apply (H5 (lit "PING PRIVMSG")); [reflexivity | cbn; lia]|].
  split.
  - apply (H7 [] (lit "PING") [lit "PING :abc"] []).
    apply H4; [reflexivity | cbn; lia].
  - etransitivity; [exact (H3 [] [lit "PING :abc"]) | reflexivity].
Defined.

(** C1, as stated, fails.  The line [PING] without a token raises; in a
    batch the [!help] that follows it gets no answer; the bot pauses and
    opens a new connection. *)
Lemma anomalous_lines_counterexample :
  process_line WeatherBot_init (fun city => city) (lit "PING")
  <> ([], inr tt)
  /\ run WeatherBot_init (fun city => city)
       [ {| refused := None;
            inbound := [Chunk (lit ":irc.server.com 001 WeatherBot :Welcome"
                               ++ crlf);
                        Chunk (lit "PING" ++ crlf
                               ++ lit ":nick!user@host PRIVMSG #help :!help"
                               ++ crlf)] |};
         {| refused := None; inbound := [] |} ]
     = ([Connect (lit "irc.server.com") 6697;
         Send (lit "NICK WeatherBot");
         Send (lit "USER WeatherBot 0 * :MansionNet Weather Information Bot");
         Send (lit "JOIN #help"); Sleep 1;
         Send (lit "JOIN #welcome"); Sleep 1;
         Sleep 30;
         Connect (lit "irc.server.com") 6697;
         Send (lit "NICK WeatherBot");
         Send (lit "USER WeatherBot 0 * :MansionNet Weather Information Bot")],
        Some (InRegistration [])).
Proof.
  split; [vm_compute; discriminate | vm_compute; reflexivity].
Qed.

(** ** Reads that bring nothing *)

Lemma frame_nothing (buffer : str) :
  contains buffer crlf = false -> frame buffer [] = ([], buffer).
Proof.
  intros H. unfold frame, split. rewrite app_nil_r.
  rewrite pieces_no_occurrence by (now apply contains_false).
  reflexivity.
Qed.

Lemma active_turn_nothing self get_weather (buffer : str) :
  contains buffer crlf = false ->
  active_turn self get_weather buffer (Chunk []) = ([], inr buffer).
Proof.
  intros H. unfold active_turn, read_dispatch. cbn [recv_decode].
  rewrite bind_ret, (frame_nothing buffer H). reflexivity.
Qed.

Lemma active_loop_nothing self get_weather (buffer : str) (n : nat) :
  contains buffer crlf = false ->
  active_loop self get_weather buffer (repeat (Chunk []) n) = ([], inr buffer).
Proof.
  intros H. induction n as [|n IH]; [reflexivity|].
  cbn [repeat active_loop]. rewrite (active_turn_nothing _ _ _ H).
  change (([], inr buffer) : M str) with (ret buffer).
  now rewrite bind_ret.
Qed.

(** The buffer the read loop keeps holds no terminator. *)
Lemma active_turn_buffer self get_weather (buffer : str) (r : recv_result)
    (tr : list action) (buffer' : str) :
  active_turn self get_weather buffer r = (tr, inr buffer') ->
  contains buffer' crlf = false.
Proof.
  unfold active_turn, read_dispatch. destruct r as [text|e].
  - cbn [recv_decode]. rewrite bind_ret. unfold frame.
    destruct (for_each _ _) as [tr' [e|[]]]; cbn [bind].
    + destruct e; intros H; try discriminate.
      injection H as _ <-. reflexivity.
    + intros H. injection H as _ <-.
      apply last_piece_clean. discriminate.
  - cbn. destruct e; intros H; try discriminate.
    injection H as _ <-. reflexivity.
Qed.

Lemma registration_turn_nothing (buffer : str) :
  contains buffer (lit "PING") = false ->
  contains buffer (lit "001") = false ->
  contains buffer (lit "Closing Link") = false ->
  contains buffer (lit "ERROR") = false ->
  registration_turn buffer (Chunk []) = ([], inr (Waiting buffer)).
Proof.
  intros H1 H2 H3 H4. unfold registration_turn, registration_body.
  cbn [recv_decode]. rewrite bind_ret, app_nil_r, H1, H2, H3, H4.
  reflexivity.
Qed.

Lemma registration_loop_nothing (buffer : str) (n : nat) :
  contains buffer (lit "PING") = false ->
  contains buffer (lit "001") = false ->
  contains buffer (lit "Closing Link") = false ->
  contains buffer (lit "ERROR") = false ->
  registration_loop buffer (repeat (Chunk []) n)
  = ([], inr (Waiting buffer, [])).
Proof.
  intros H1 H2 H3 H4. induction n as [|n IH]; [reflexivity|].
  cbn [repeat registration_loop].
  rewrite (registration_turn_nothing _ H1 H2 H3 H4).
  change (([], inr (Waiting buffer)) : M registration)
    with (ret (Waiting buffer)).
  now rewrite bind_ret.
Qed.

(** A buffer with which the registration loop goes on waiting holds none of
    the texts that end it. *)
Lemma registration_turn_waiting (buffer0 : str) (r : recv_result)
    (tr : list action) (buffer : str) :
  registration_turn buffer0 r = (tr, inr (Waiting buffer)) ->
  contains buffer (lit "001") = false
  /\ contains buffer (lit "Closing Link") = false
  /\ contains buffer (lit "ERROR") = false.
Proof.
  unfold registration_turn, registration_body. destruct r as [temp|e].
  - cbn [recv_decode]. rewrite bind_ret.
    destruct (contains (buffer0 ++ temp) (lit "001")) eqn:E1;
    destruct (contains (buffer0 ++ temp) (lit "Closing Link")) eqn:E2;
    destruct (contains (buffer0 ++ temp) (lit "ERROR")) eqn:E3;
    destruct (contains (buffer0 ++ temp) (lit "PING"));
    try destruct (index _ 1) as [tr' [e|token]];
    cbn; try (destruct e; cbn); intros H; try discriminate;
    injection H as _ <-; auto.
  - destruct e; cbn; intros H; try discriminate.
    injection H as _ <-. auto.
Qed.

(** X17.  A read that brings the empty chunk (the remote end has closed the
    connection) leaves the bot where it is.  In the read loop the
    buffer is unchanged, nothing is sent and no exception is raised, for any
    number of such reads.  In the registration loop the same holds while the
    buffer holds no [PING]: the buffer is unchanged, nothing is sent, and the
    loop goes on waiting, for any number of such reads; so a socket closed
    from the start leaves the bot in the registration loop with the empty
    buffer, after [NICK] and [USER] only. *)
Theorem empty_reads_spin self get_weather :
  (forall buffer0 r tr buffer n,
      active_turn self get_weather buffer0 r = (tr, inr buffer) ->
      active_turn self get_weather buffer (Chunk []) = ([], inr buffer)
      /\ active_loop self get_weather buffer (repeat (Chunk []) n)
         = ([], inr buffer))
  /\ (forall n,
        active_loop self get_weather [] (repeat (Chunk []) n) = ([], inr []))
  /\ (forall buffer0 r tr buffer n,
        registration_turn buffer0 r = (tr, inr (Waiting buffer)) ->
        contains buffer (lit "PING") = false ->
        registration_turn buffer (Chunk []) = ([], inr (Waiting buffer))
        /\ registration_loop buffer (repeat (Chunk []) n)
           = ([], inr (Waiting buffer, [])))
  /\ (forall n,
        run self get_weather
          [ {| refused := None; inbound := repeat (Chunk []) n |} ]
        = ([Connect (server self) (port self);
            Send (lit "NICK " ++ nickname self);
            Send (lit "USER " ++ nickname self
                    ++ lit " 0 * :MansionNet Weather Information Bot")],
           Some (InRegistration []))).
Proof.
  split; [|split; [|split]].
  - intros buffer0 r tr buffer n H.
    apply active_turn_buffer in H.
    split; [now apply active_turn_nothing | now apply active_loop_nothing].
  - intros n. now apply active_loop_nothing.
  - intros buffer0 r tr buffer n H Hp.
    apply registration_turn_waiting in H as (H1 & H2 & H3).
    split; [now apply registration_turn_nothing
           | now apply registration_loop_nothing].
  - intros n. cbn [run]. unfold attempt, connect. cbn [refused inbound].
    rewrite registration_loop_nothing by reflexivity. reflexivity.
Qed.

(** The registration loop, first after a read of nothing but a decode error,
    then on a socket closed from the start. *)
Lemma empty_reads_spin_witness :
  registration_loop [] (repeat (Chunk []) 3) = ([], inr (Waiting [], []))
  /\ active_loop WeatherBot_init (fun city => city) (lit "PRIVMSG #he")
       (repeat (Chunk []) 3)
     = ([], inr (lit "PRIVMSG #he")).
Proof.
  destruct (empty_reads_spin WeatherBot_init (fun city => city))
    as (H1 & _ & H3 & _).
  split.
  - apply (H3 [] (Raises UnicodeDecodeError) [] [] 3); reflexivity.
  - apply (H1 [] (Chunk (lit "PING :abc" ++ crlf ++ lit "PRIVMSG #he"))
             [Send (lit "PONG :abc")] (lit "PRIVMSG #he") 3).
    vm_compute. reflexivity.
Defined.

(** C10: the code at the failing input.  During registration the server
    sends [PING :abc] and then closes the connection: the reads that follow
    bring the empty chunk.  The buffer of the registration loop still holds
    the [PING], and every empty read sends [PONG :abc] again; the loop goes
    on waiting with the buffer unchanged. *)
Theorem empty_read_resends_pong :
  registration_turn (lit "PING :abc" ++ crlf) (Chunk [])
  = ([Send (lit "PONG :abc")], inr (Waiting (lit "PING :abc" ++ crlf)))
  /\ registration_loop [] [Chunk (lit "PING :abc" ++ crlf); Chunk []; Chunk []]
     = ([Send (lit "PONG :abc"); Send (lit "PONG :abc");
         Send (lit "PONG :abc")],
        inr (Waiting (lit "PING :abc" ++ crlf), []))
  /\ run WeatherBot_init (fun city => city)
       [ {| refused := None;
            inbound := [Chunk (lit "PING :abc" ++ crlf); Chunk []; Chunk []] |} ]
     = ([Connect (lit "irc.server.com") 6697;
         Send (lit "NICK WeatherBot");
         Send (lit "USER WeatherBot 0 * :MansionNet Weather Information Bot");
         Send (lit "PONG :abc"); Send (lit "PONG :abc");
         Send (lit "PONG :abc")],
        Some (InRegistration (lit "PING :abc" ++ crlf))).
Proof. repeat split; vm_compute; reflexivity. Qed.

(** ** The registration wait *)

Lemma occurrence_app_none (a b sub : str) :
  occurrence (a ++ b) sub = None -> occurrence a sub = None.
Proof.
  induction a as [|x a IH]; intros H.
  - destruct sub as [|p sub]; [|reflexivity].
    destruct b; discriminate.
  - cbn [app] in H. apply occurrence_none_cons in H as [H1 H2].
    apply occurrence_none_cons. split; [|auto].
    destruct (startswith (x :: a) sub) eqn:E; [|reflexivity].
    apply (startswith_app _ _ b) in E. cbn [app] in E. congruence.
Qed.

Lemma contains_app_false (a b sub : str) :
  contains (a ++ b) sub = false -> contains a sub = false.
Proof. rewrite !contains_false. apply occurrence_app_none. Qed.

Lemma registration_turn_waits (buffer temp : str) :
  contains (buffer ++ temp) (lit "PING") = false ->
  contains (buffer ++ temp) (lit "001") = false ->
  contains (buffer ++ temp) (lit "Closing Link") = false ->
  contains (buffer ++ temp) (lit "ERROR") = false ->
  registration_turn buffer (Chunk temp)
  = ([], inr (Waiting (buffer ++ temp))).
Proof.
  intros H1 H2 H3 H4. unfold registration_turn, registration_body.
  cbn [recv_decode]. now rewrite bind_ret, H1, H2, H3, H4.
Qed.

(** Reads that bring none of the texts the loop looks for leave it
    waiting, however many they are. *)
Lemma registration_loop_waits (chunks : list str) : forall buffer,
  contains (buffer ++ concat chunks) (lit "PING") = false ->
  contains (buffer ++ concat chunks) (lit "001") = false ->
  contains (buffer ++ concat chunks) (lit "Closing Link") = false ->
  contains (buffer ++ concat chunks) (lit "ERROR") = false ->
  registration_loop buffer (map Chunk chunks)
  = ([], inr (Waiting (buffer ++ concat chunks), [])).
Proof.
  induction chunks as [|chunk chunks IH]; intros buffer H1 H2 H3 H4.
  - cbn. now rewrite app_nil_r.
  - cbn [concat] in *. rewrite app_assoc in *.
    cbn [map registration_loop].
    rewrite registration_turn_waits
      by (eapply contains_app_false; eassumption).
    change (([], inr (Waiting (buffer ++ chunk))) : M registration)
      with (ret (Waiting (buffer ++ chunk))).
    rewrite bind_ret. now apply IH.
Qed.

Lemma for_each_join (l : list str) :
  for_each l (fun channel => bind (send (lit "JOIN " ++ channel))
                               (fun _ => emit (Sleep 1)))
  = (flat_map (fun channel => [Send (lit "JOIN " ++ channel); Sleep 1]) l,
     inr tt).
Proof.
  induction l as [|c l IH]; [reflexivity|].
  cbn [for_each flat_map]. rewrite IH. reflexivity.
Qed.

(** C5 (amended).  The registration wait ends in three ways only: the text
    read so far holds [001] (the bot goes on to join its channels); it holds
    [Closing Link] or [ERROR], or a read or the answer to a [PING] raises
    another exception than a decoding error (the bot pauses five seconds and
    gives the attempt up).  There is no timeout: as long as what the server
    sends holds none of these texts, the bot goes on waiting, whatever
    the number of reads, and when the server sends no more it stays blocked
    in the wait. *)
Theorem registration_ends_on_reply_only self :
  (forall buffer temp,
      contains (buffer ++ temp) (lit "PING") = false ->
      contains (buffer ++ temp) (lit "001") = true ->
      registration_turn buffer (Chunk temp) = ([], inr Registered))
  /\ (forall sock tr reads,
        refused sock = None ->
        registration_loop [] (inbound sock) = (tr, inr (Registered, reads)) ->
        connect self sock
        = ([Connect (server self) (port self);
            Send (lit "NICK " ++ nickname self);
            Send (lit "USER " ++ nickname self
                    ++ lit " 0 * :MansionNet Weather Information Bot")]
             ++ tr
             ++ flat_map (fun channel =>
                            [Send (lit "JOIN " ++ channel); Sleep 1])
                  (channels self),
           inr (ConnectTrue reads)))
  /\ (forall buffer temp,
        contains (buffer ++ temp) (lit "PING") = false ->
        contains (buffer ++ temp) (lit "001") = false ->
        contains (buffer ++ temp) (lit "Closing Link")
          || contains (buffer ++ temp) (lit "ERROR") = true ->
        registration_turn buffer (Chunk temp)
        = ([Sleep registration_retry_delay], inr Abandoned))
  /\ (forall buffer e,
        e <> UnicodeDecodeError ->
        registration_turn buffer (Raises e)
        = ([Sleep registration_retry_delay], inr Abandoned))
  /\ (forall buffer r tr,
        registration_turn buffer r = (tr, inr Registered) ->
        exists temp, r = Chunk temp
                     /\ contains (buffer ++ temp) (lit "001") = true)
  /\ (forall buffer r tr,
        registration_turn buffer r = (tr, inr Abandoned) ->
        match r with
        | Raises e => e <> UnicodeDecodeError
        | Chunk temp =>
          contains (buffer ++ temp) (lit "Closing Link")
            || contains (buffer ++ temp) (lit "ERROR") = true
          \/ (contains (buffer ++ temp) (lit "PING") = true
              /\ length (split_ws (slice_from (buffer ++ temp)
                                     (find (buffer ++ temp) (lit "PING"))))
                 < 2)
        end)
  /\ (forall chunks,
        contains (concat chunks) (lit "PING") = false ->
        contains (concat chunks) (lit "001") = false ->
        contains (concat chunks) (lit "Closing Link") = false ->
        contains (concat chunks) (lit "ERROR") = false ->
        registration_loop [] (map Chunk chunks)
        = ([], inr (Waiting (concat chunks), []))
        /\ registration_ended (map Chunk chunks) = false).
Proof.
  split; [|split; [|split; [|split; [|split; [|split]]]]].
  - intros buffer temp H1 H2. unfold registration_turn, registration_body.
    cbn [recv_decode]. now rewrite bind_ret, H1, H2.
  - intros sock tr reads Hr H. unfold connect. rewrite Hr.
    cbn [emit send bind]. rewrite H. cbn [bind app].
    rewrite for_each_join. cbn [bind ret]. now rewrite app_nil_r.
  - intros buffer temp H1 H2 H3. unfold registration_turn, registration_body.
    cbn [recv_decode]. now rewrite bind_ret, H1, H2, H3.
  - intros buffer e He. destruct e; try reflexivity. congruence.
  - intros buffer r tr. unfold registration_turn, registration_body.
    destruct r as [temp|e].
    + cbn [recv_decode]. rewrite bind_ret. intros H. exists temp.
      split; [reflexivity|].
      destruct (contains (buffer ++ temp) (lit "001")); [reflexivity|].
      exfalso. revert H.
      destruct (contains (buffer ++ temp) (lit "PING"));
        try destruct (index _ 1) as [tr' [e|token]];
        destruct (_ || _); cbn; try (destruct e; cbn); discriminate.
    + destruct e; cbn; discriminate.
  - intros buffer r tr. unfold registration_turn, registration_body.
    destruct r as [temp|e].
    + cbn [recv_decode]. rewrite bind_ret. intros H.
      destruct (contains (buffer ++ temp) (lit "Closing Link")
                || contains (buffer ++ temp) (lit "ERROR")); [now left|].
      right. revert H.
      destruct (contains (buffer ++ temp) (lit "PING")).
      * unfold index.
        destruct (nth_error _ 1) eqn:E.
        -- destruct (contains (buffer ++ temp) (lit "001")); cbn; discriminate.
        -- intros _. split; [reflexivity|].
           apply nth_error_None in E. lia.
      * destruct (contains (buffer ++ temp) (lit "001")); cbn; discriminate.
    + destruct e; cbn; discriminate.
  - intros chunks H1 H2 H3 H4.
    pose proof (registration_loop_waits chunks [] H1 H2 H3 H4) as H.
    cbn [app] in H. split; [exact H|].
    unfold registration_ended. now rewrite H.
Qed.

(** A server that answers with notices only, and one that says nothing. *)
Lemma registration_ends_on_reply_only_witness :
  registration_turn (lit ":irc.server.com NOTICE * :*** Looking up" ++ crlf)
    (Chunk (lit ":irc.server.com 001 WeatherBot :Welcome" ++ crlf))
  = ([], inr Registered)
  /\ registration_ended
       [Chunk (lit ":irc.server.com NOTICE * :*** Looking up" ++ crlf);
        Chunk (lit ":irc.server.com NOTICE * :*** Found your hostname"
               ++ crlf)]
     = false.
Proof.
  destruct (registration_ends_on_reply_only WeatherBot_init)
    as (H1 & _ & _ & _ & _ & _ & H7).
  split.
  - apply H1; reflexivity.
  - apply (H7 [lit ":irc.server.com NOTICE * :*** Looking up" ++ crlf;
               lit ":irc.server.com NOTICE * :*** Found your hostname"
               ++ crlf]); reflexivity.
Defined.

(** C5, as stated, fails: no timeout ends the wait.  With a server that
    says nothing, with one whose connection is closed (every read gives the
    empty chunk), and with one that sends notices only, the registration
    loop has not ended. *)
Lemma registration_ends_on_reply_only_counterexample :
  ~ (forall reads, registration_ended reads = true)
  /\ registration_ended [] = false
  /\ (forall n, registration_ended (repeat (Chunk []) n) = false)
  /\ registration_ended
       [Chunk (lit ":irc.server.com NOTICE * :*** Looking up" ++ crlf);
        Chunk (lit ":irc.server.com NOTICE * :*** Found your hostname"
               ++ crlf)]
     = false.
Proof.
  split; [|split; [|split]].
  - intros H. specialize (H []). discriminate.
  - reflexivity.
  - intros n. unfold registration_ended.
    now rewrite registration_loop_nothing.
  - vm_compute. reflexivity.
Qed.

(** ** Keep-alive *)

Lemma bind_first {A B} (x : action) (m : M A) (f : A -> M B) :
  (exists tr r, m = (x :: tr, r)) -> exists tr r, bind m f = (x :: tr, r).
Proof.
  intros (tr & r & ->). destruct r as [e|a]; cbn [bind]; [eauto|].
  destruct (f a). cbn [app]. eauto.
Qed.

(** In the read loop a [PING] line is answered before anything else is done
    with the batch. *)
Lemma ping_answered_first self get_weather (token : str) (rest : list str) :
  token <> [] -> no_space token = true ->
  exists tr r,
    for_each ((lit "PING " ++ token) :: rest) (process_line self get_weather)
    = (Send (lit "PONG " ++ token) :: tr, r).
Proof.
  intros Hn Ht. cbn [for_each]. apply bind_first.
  unfold process_line. apply bind_first.
  exists [], (inr tt). unfold handle_ping.
  change (lit "PING " ++ token) with (lit "PING" ++ 32%N :: token).
  replace (startswith (lit "PING" ++ 32%N :: token) (lit "PING")) with true
    by (symmetry; apply startswith_spec; now exists (32%N :: token)).
  rewrite split_ws_word; [|discriminate|reflexivity|reflexivity].
  rewrite split_ws_last_word by assumption.
  cbn [index nth_error]. now rewrite bind_ret.
Qed.

(** C4: the code at the failing input.  During registration the server
    sends [PING :a] and [PING :b].  When both come in one read the bot
    answers [PONG :a] only; when they come in two reads it answers [PONG :a]
    twice; it never sends [PONG :b]. *)
Theorem registration_echoes_first_ping_only :
  registration_loop []
    [Chunk (lit "PING :a" ++ crlf ++ lit "PING :b" ++ crlf)]
  = ([Send (lit "PONG :a")],
     inr (Waiting (lit "PING :a" ++ crlf ++ lit "PING :b" ++ crlf), []))
  /\ registration_loop []
       [Chunk (lit "PING :a" ++ crlf); Chunk (lit "PING :b" ++ crlf)]
     = ([Send (lit "PONG :a"); Send (lit "PONG :a")],
        inr (Waiting (lit "PING :a" ++ crlf ++ lit "PING :b" ++ crlf), []))
  /\ ~ In (Send (lit "PONG :b"))
         (fst (registration_loop []
                 [Chunk (lit "PING :a" ++ crlf);
                  Chunk (lit "PING :b" ++ crlf)])).
Proof.
  split; [vm_compute; reflexivity|].
  split; [vm_compute; reflexivity|].
  vm_compute. intros [H|[H|[]]]; discriminate.
Qed.

(** ** Commands *)

Lemma split_ws_aux_prefix (s : str) :
  startswith s (fst (split_ws_aux s)) = true.
Proof.
  induction s as [|c s IH]; [reflexivity|].
  cbn [split_ws_aux]. destruct (split_ws_aux s) as [w ws].
  destruct (isspace c); [reflexivity|].
  cbn [fst startswith] in *. now rewrite N.eqb_refl, IH.
Qed.

(** A text that does not start with whitespace starts with its first
    word. *)
Lemma first_word_prefix (s w : str) :
  lstrip s = s -> nth_error (split_ws s) 0 = Some w ->
  startswith s w = true.
Proof.
  intros Hs Hw. pose proof (split_ws_aux_prefix s) as Hp.
  unfold split_ws in Hw. destruct s as [|c s]; [discriminate|].
  cbn [lstrip] in Hs. cbn [split_ws_aux] in Hw, Hp.
  destruct (split_ws_aux s) as [w' ws].
  destruct (isspace c) eqn:Ec.
  - exfalso. assert (Hl : length (lstrip s) <= length s).
    { clear. induction s as [|x s IH]; [reflexivity|].
      cbn [lstrip]. destruct (isspace x); cbn [length]; lia. }
    rewrite Hs in Hl. cbn [length] in Hl. lia.
  - cbn [push_word nth_error] in Hw. injection Hw as <-. exact Hp.
Qed.

Lemma lstrip_snoc (a : str) (c : char) :
  isspace c = false -> lstrip (a ++ [c]) = lstrip a ++ [c].
Proof.
  intros Hc. induction a as [|x a IH]; cbn [app lstrip].
  - now rewrite Hc.
  - destruct (isspace x); [exact IH | reflexivity].
Qed.

Lemma lstrip_head (s : str) :
  lstrip s = [] \/ exists c s', lstrip s = c :: s' /\ isspace c = false.
Proof.
  induction s as [|x s IH]; [now left|].
  cbn [lstrip]. destruct (isspace x) eqn:E; [exact IH|].
  right. eauto.
Qed.

(** The message handed to the commands does not start with whitespace. *)
Lemma lstrip_strip (text : str) : lstrip (strip text) = strip text.
Proof.
  unfold strip, rstrip.
  destruct (lstrip_head text) as [-> | (c & s' & -> & Hc)]; [reflexivity|].
  cbn [rev]. rewrite lstrip_snoc by exact Hc.
  rewrite rev_app_distr. cbn [rev app lstrip]. now rewrite Hc.
Qed.

(** C6 (amended).  The weather command is dispatched when, and only when,
    the message starts with the characters [!weather]: with more than one
    word, the weather of the words after the first, joined by single spaces,
    is looked up and sent; with one word, the usage text is sent.  A message
    whose first word is [!weather] is one of these, and so is a message
    whose first word only begins with it.  On any other message no lookup is
    made and the only possible reply is the help text. *)
Theorem weather_command_by_prefix
    (get_weather : str -> str) (target message : str) :
  (startswith message (lit "!weather") = true ->
   handle_command get_weather target message
   = if 1 <? length (split_ws message)
     then ([Lookup (join (lit " ") (skipn 1 (split_ws message)));
            Send (lit "PRIVMSG " ++ target ++ lit " :"
                    ++ get_weather
                         (join (lit " ") (skipn 1 (split_ws message))))],
           inr tt)
     else ([Send (lit "PRIVMSG " ++ target ++ lit " :" ++ usage)], inr tt))
  /\ (startswith message (lit "!weather") = false ->
      handle_command get_weather target message
      = if eqb message (lit "!help")
        then ([Send (lit "PRIVMSG " ++ target ++ lit " :" ++ help_msg)],
              inr tt)
        else ([], inr tt))
  /\ (lstrip message = message ->
      nth_error (split_ws message) 0 = Some (lit "!weather") ->
      startswith message (lit "!weather") = true)
  /\ (forall text, lstrip (strip text) = strip text).
Proof.
  split; [|split; [|split]].
  - intros H. unfold handle_command. rewrite H.
    destruct (1 <? length (split_ws message)); reflexivity.
  - intros H. unfold handle_command. rewrite H.
    destruct (eqb message (lit "!help")); reflexivity.
  - apply first_word_prefix.
  - apply lstrip_strip.
Qed.

(** [!weather New York] in [#help]. *)
Lemma weather_command_by_prefix_witness :
  handle_command (fun city => city) (lit "#help") (lit "!weather New York")
  = ([Lookup (lit "New York"); Send (lit "PRIVMSG #help :New York")],
     inr tt).
Proof.
  destruct (weather_command_by_prefix (fun city => city) (lit "#help")
              (lit "!weather New York")) as (H1 & _ & H3 & _).
  rewrite H1; [reflexivity|]. apply H3; reflexivity.
Defined.

(** C6, as stated, fails.  The message [!weatherx Paris] in a configured
    channel has a first word other than [!weather]; the bot looks up the
    weather of Paris all the same and sends the answer, and to [!weatherx]
    alone it answers with the usage text. *)
Lemma weather_command_by_prefix_counterexample :
  nth_error (split_ws (lit "!weatherx Paris")) 0 <> Some (lit "!weather")
  /\ process_line WeatherBot_init (fun city => lit "Sunny in " ++ city)
       (privmsg_line (lit "nick!user@host") (lit "#help")
          (lit "!weatherx Paris"))
     = ([Lookup (lit "Paris");
         Send (lit "PRIVMSG #help :Sunny in Paris")],
        inr tt)
  /\ process_line WeatherBot_init (fun city => lit "Sunny in " ++ city)
       (privmsg_line (lit "nick!user@host") (lit "#help") (lit "!weatherx"))
     = ([Send (lit "PRIVMSG #help :Usage: !weather <city>")], inr tt).
Proof.
  split; [vm_compute; discriminate|].
  split; vm_compute; reflexivity.
Qed.

(** ** The weather lookup *)

(** C7 (amended).  The weather lookup returns a text whatever the two HTTP
    calls do: it never raises.  The text is the weather summary or one of
    three failure texts: [Could not find
    location: city] when the geocoding gives no place, [Could not fetch
    weather data for city] when the forecast answers with another status
    than 200, and [Error fetching weather data: ...] with the text of the
    exception when the forecast request, its decoding or a missing field
    raises. *)
Theorem get_weather_replies
    (requests_get : str -> result response) (py_str : json -> str)
    (exn_str : exn -> str) (city : str) :
  (get_weather requests_get py_str exn_str city = could_not_find city
   \/ get_weather requests_get py_str exn_str city = could_not_fetch city
   \/ (exists e,
        get_weather requests_get py_str exn_str city
        = error_fetching (exn_str e))
   \/ (exists n c d t h w,
        get_weather requests_get py_str exn_str city = summary n c d t h w))
  /\ (get_coordinates requests_get city = None ->
      get_weather requests_get py_str exn_str city = could_not_find city)
  /\ (forall place answer,
        get_coordinates requests_get city = Some place ->
        requests_get (forecast_url py_str place) = inr answer ->
        status_code answer <> 200%Z ->
        get_weather requests_get py_str exn_str city = could_not_fetch city)
  /\ (forall place e,
        get_coordinates requests_get city = Some place ->
        requests_get (forecast_url py_str place) = inl e ->
        get_weather requests_get py_str exn_str city
        = error_fetching (exn_str e)).
Proof.
  split; [|split; [|split]].
  - unfold get_weather.
    destruct (get_coordinates requests_get city) as [place|]; [|now left].
    destruct (requests_get (forecast_url py_str place)) as [e|answer];
      cbn [bind_result]; [right; right; left; eauto|].
    destruct (status_code answer =? 200)%Z; [|right; now left].
    repeat match goal with
           | |- context [bind_result ?m _] =>
             destruct m as [?e|?v]; cbn [bind_result];
             [right; right; left; eauto|]
           end.
    right; right; right. eauto 10.
  - intros H. unfold get_weather. now rewrite H.
  - intros place answer H1 H2 H3. unfold get_weather.
    rewrite H1, H2. cbn [bind_result].
    apply Z.eqb_neq in H3. now rewrite H3.
  - intros place e H1 H2. unfold get_weather. now rewrite H1, H2.
Qed.

Example get_weather_paris :
  get_weather (sample_requests_get (inr forecast_overcast))
    sample_py_str sample_exn_str (lit "Paris")
  = lit "Weather in Paris, France: Overcast, Temperature: 21" ++ [176%N]
    ++ lit "C, Humidity: 40%, Wind: 8 km/h".
Proof. vm_compute. reflexivity. Qed.

(** Paris is found, the forecast service answers 503. *)
Lemma get_weather_replies_witness :
  get_weather (sample_requests_get (inr forecast_unavailable))
    sample_py_str sample_exn_str (lit "Paris")
  = could_not_fetch (lit "Paris").
Proof.
  destruct (get_weather_replies (sample_requests_get (inr forecast_unavailable))
              sample_py_str sample_exn_str (lit "Paris"))
    as (_ & _ & H & _).
  apply (H paris forecast_unavailable);
    [vm_compute; reflexivity | vm_compute; reflexivity | discriminate].
Defined.

(** C7, as stated, fails: when the forecast service answers with another
    status than 200, the channel reads a third failure text. *)
Lemma get_weather_replies_counterexample :
  get_weather (sample_requests_get (inr forecast_unavailable))
    sample_py_str sample_exn_str (lit "Paris")
  = lit "Could not fetch weather data for Paris"
  /\ lit "Could not fetch weather data for Paris"
     <> could_not_find (lit "Paris")
  /\ (forall msg,
        lit "Could not fetch weather data for Paris" <> error_fetching msg)
  /\ (forall n c d t h w,
        lit "Could not fetch weather data for Paris" <> summary n c d t h w)
  /\ process_line WeatherBot_init
       (get_weather (sample_requests_get (inr forecast_unavailable))
          sample_py_str sample_exn_str)
       (privmsg_line (lit "nick!user@host") (lit "#help")
          (lit "!weather Paris"))
     = ([Lookup (lit "Paris");
         Send (lit "PRIVMSG #help :Could not fetch weather data for Paris")],
        inr tt).
Proof.
  split; [vm_compute; reflexivity|].
  split; [vm_compute; discriminate|].
  split; [intros msg; vm_compute; discriminate|].
  split; [intros n c d t h w; vm_compute; discriminate|].
  vm_compute. reflexivity.
Qed.

(** * Further properties *)

(** ** Pieces and lines *)

(** The first piece of a split starts the string. *)
Lemma first_piece_prefix sep ms (s h : str) (t : list str) :
  sep <> [] -> pieces sep ms 0 s = h :: t -> exists r, s = h ++ r.
Proof.
  intros Hsep H.
  pose proof (join_pieces sep s Hsep ms 0 (Nat.le_0_l _)) as J.
  rewrite H in J. cbn [skipn] in J. destruct t as [|y t].
  - exists []. cbn in J. now rewrite app_nil_r.
  - exists (sep ++ join sep (y :: t)). now rewrite <- J.
Qed.

(** No piece of a split holds the separator. *)
Lemma pieces_clean sep (s : str) : sep <> [] -> forall k,
  Forall (fun p => occurrence p sep = None) (pieces sep None k s).
Proof.
  intros Hsep. induction s as [|c s IH]; intros k.
  - constructor; [now apply occurrence_nil | constructor].
  - destruct k as [|k]; [|rewrite pieces_skip; apply IH].
    destruct (startswith (c :: s) sep) eqn:E.
    + rewrite pieces_cut by (cbn [may_split andb]; exact E).
      constructor; [now apply occurrence_nil | apply IH].
    + destruct (pieces_keep sep None c s) as (h & t & H1 & H2); [exact E|].
      rewrite H2. specialize (IH 0). rewrite H1 in IH.
      inversion IH as [|? ? Hh Ht]; subst. constructor; [|exact Ht].
      apply occurrence_none_cons. split; [|exact Hh].
      destruct (startswith (c :: h) sep) eqn:E'; [|reflexivity].
      destruct (first_piece_prefix sep None s h t Hsep H1) as [r ->].
      apply (startswith_app _ _ r) in E'. cbn [app] in E'. congruence.
Qed.

(** A line without terminator, followed by its terminator, is cut off as it
    is. *)
Lemma pieces_line (l rest : str) :
  occurrence l crlf = None ->
  pieces crlf None 0 (l ++ crlf ++ rest) = l :: pieces crlf None 0 rest.
Proof.
  intros H. induction l as [|x l IH].
  - exact (pieces_cut_app 13%N [10%N] None rest eq_refl).
  - apply occurrence_none_cons in H as [H1 H2].
    destruct (pieces_keep crlf None x (l ++ crlf ++ rest))
      as (h & t & H3 & H4).
    + cbn [may_split andb]. unfold crlf in H1 |- *. destruct l as [|y l].
      * cbn [app startswith]. change (10 =? 13)%N with false.
        apply andb_false_r.
      * exact H1.
    + cbn [app]. rewrite H4. rewrite (IH H2) in H3.
      now injection H3 as <- <-.
Qed.

Lemma split_lines (ls : list str) :
  Forall (fun l => contains l crlf = false) ls ->
  split (concat (map (fun l => l ++ crlf) ls)) crlf = ls ++ [[]].
Proof.
  unfold split. induction 1 as [|l ls Hl _ IH]; [reflexivity|].
  cbn [map concat app]. rewrite <- app_assoc.
  rewrite pieces_line by (now apply contains_false). now rewrite IH.
Qed.

(** X1.  The framing step yields whole lines only: no line it yields and no
    buffer it keeps holds a terminator, and the lines, each with its
    terminator, followed by the buffer are the old buffer and the chunk.  A
    chunk that brings no terminator yields nothing and is added to the
    buffer. *)
Theorem frame_yields_whole_lines (buffer chunk : str) :
  (let (lines, rest) := frame buffer chunk in
   Forall (fun l => contains l crlf = false) lines
   /\ contains rest crlf = false
   /\ concat (map (fun l => l ++ crlf) lines) ++ rest = buffer ++ chunk)
  /\ (contains (buffer ++ chunk) crlf = false ->
      frame buffer chunk = ([], buffer ++ chunk)).
Proof.
  assert (Hsep : crlf <> []) by discriminate. split.
  - unfold frame, split.
    pose proof (pieces_clean crlf (buffer ++ chunk) Hsep 0) as H.
    pose proof (join_pieces crlf (buffer ++ chunk) Hsep None 0
                  (Nat.le_0_l _)) as J.
    rewrite (app_removelast_last (l := pieces crlf None 0 (buffer ++ chunk))
               [] (pieces_nonempty _ _ _ _)) in H, J.
    apply Forall_app in H as [H1 H2]. inversion H2; subst.
    split; [|split].
    + eapply Forall_impl; [|exact H1]. intros l. apply contains_false.
    + now apply contains_false.
    + rewrite <- join_lines. exact J.
  - intros H. unfold frame, split.
    rewrite pieces_no_occurrence by (now apply contains_false).
    reflexivity.
Qed.

(** A chunk that ends in the middle of a command. *)
Lemma frame_yields_whole_lines_witness :
  frame (lit "PRIVMSG #he") (lit "lp :!we")
  = ([], lit "PRIVMSG #help :!we").
Proof.
  apply (frame_yields_whole_lines (lit "PRIVMSG #he") (lit "lp :!we")).
  reflexivity.
Defined.

(** C2 (amended).  Chunking is transparent to the framing step as long as
    no cut falls inside a character.  For every input that decodes and every
    way of cutting its bytes into reads that each decode, the lines yielded,
    each with its terminator put back, followed by the buffer left are the
    text of the input; the lines and the buffer are the pieces of that text
    between its CRLF terminators, none of them holding a CRLF.  In
    particular a terminator cut between two reads ends one line, as an uncut
    one does. *)
Theorem chunking_is_transparent (reads : list (list N)) (text : str) :
  Forall (fun bs => utf8_decode bs <> None) reads ->
  utf8_decode (concat reads) = Some text ->
  (let (lines, rest) := feed_bytes [] reads in
   concat (map (fun l => l ++ crlf) lines) ++ rest = text
   /\ lines ++ [rest] = split text crlf
   /\ Forall (fun l => contains l crlf = false) lines
   /\ contains rest crlf = false)
  /\ forall x y : list N,
       utf8_decode x <> None -> utf8_decode y <> None ->
       feed_bytes [] [x ++ [13%N]; 10%N :: y]
       = feed_bytes [] [x ++ [13%N; 10%N] ++ y].
Proof.
  intros Hr Hw. split.
  - destruct (decoded_reads reads Hr) as [texts Ht].
    rewrite (feed_bytes_decoded reads texts Ht).
    pose proof (decoded_whole reads texts text Ht Hw) as <-.
    destruct (feed_is_transparent texts) as [H _].
    destruct (feed [] texts) as [lines rest]. destruct H as [H1 H2].
    split; [exact H1 | split; [exact H2|]].
    pose proof (pieces_clean crlf (concat texts) ltac:(discriminate) 0) as Hc.
    fold (split (concat texts) crlf) in Hc. rewrite <- H2 in Hc.
    apply Forall_app in Hc as [Hl Hb]. inversion Hb; subst. split.
    + eapply Forall_impl; [|exact Hl]. intros l. apply contains_false.
    + now apply contains_false.
  - intros x y Hx Hy.
    destruct (utf8_decode x) as [tx|] eqn:Ex; [|congruence].
    destruct (utf8_decode y) as [ty|] eqn:Ey; [|congruence].
    assert (E1 : utf8_decode (x ++ [13%N]) = Some (tx ++ [13%N])).
    { now apply utf8_decode_app. }
    assert (E2 : utf8_decode (10%N :: y) = Some (10%N :: ty)).
    { now apply (utf8_decode_app [10%N] y [10%N] ty). }
    assert (E3 : utf8_decode (x ++ [13%N; 10%N] ++ y)
                 = Some (tx ++ crlf ++ ty)).
    { apply utf8_decode_app; [exact Ex|].
      now apply (utf8_decode_app [13%N; 10%N] y crlf ty). }
    rewrite (feed_bytes_decoded [x ++ [13%N]; 10%N :: y]
               [tx ++ [13%N]; 10%N :: ty])
      by (repeat constructor; assumption).
    rewrite (feed_bytes_decoded [x ++ [13%N; 10%N] ++ y] [tx ++ crlf ++ ty])
      by (repeat constructor; assumption).
    apply feed_is_transparent. exact [].
Qed.

(** [café], CRLF and [PING], cut between the CR and the LF: the two bytes of
    the [é] come in the same read. *)
Lemma chunking_is_transparent_witness :
  let (lines, rest) :=
    feed_bytes [] [[99; 97; 102; 195; 169; 13]%N; [10; 80; 73; 78; 71]%N] in
  concat (map (fun l => l ++ crlf) lines) ++ rest
  = [99; 97; 102; 233]%N ++ crlf ++ lit "PING"
  /\ lines ++ [rest] = split ([99; 97; 102; 233]%N ++ crlf ++ lit "PING") crlf
  /\ Forall (fun l => contains l crlf = false) lines
  /\ contains rest crlf = false.
Proof.
  apply (chunking_is_transparent
           [[99; 97; 102; 195; 169; 13]%N; [10; 80; 73; 78; 71]%N]
           ([99; 97; 102; 233]%N ++ crlf ++ lit "PING")).
  - repeat constructor; discriminate.
  - reflexivity.
Defined.

(** C2, as stated, fails on the code: every read is decoded on its own
    (line 164) and a read that does not decode empties the buffer (lines
    203-205).  The input [é] CRLF, bytes C3 A9 0D 0A, is valid and comes out
    as the line [é] when it is read at once; cut after its first byte,
    neither read decodes, no line is yielded and the buffer is empty: the
    input is lost. *)
Lemma chunking_is_transparent_counterexample :
  utf8_decode [195; 169; 13; 10]%N = Some ([233%N] ++ crlf)
  /\ feed_bytes [] [[195; 169; 13; 10]%N] = ([[233%N]], [])
  /\ concat [[195%N]; [169; 13; 10]%N] = [195; 169; 13; 10]%N
  /\ feed_bytes [] [[195%N]; [169; 13; 10]%N] = ([], []).
Proof. repeat split. Qed.

(** X2.  Lines that hold no terminator, sent each with its terminator, are
    yielded as they are, in order, and leave the buffer empty, however their
    bytes are cut into reads that each decode. *)
Theorem terminated_lines_are_yielded (ls : list str) (reads : list (list N)) :
  Forall (fun l => contains l crlf = false) ls ->
  Forall (fun bs => utf8_decode bs <> None) reads ->
  utf8_decode (concat reads) = Some (concat (map (fun l => l ++ crlf) ls)) ->
  feed_bytes [] reads = (ls, []).
Proof.
  intros Hls Hr Hw. destruct (decoded_reads reads Hr) as [texts Ht].
  rewrite (feed_bytes_decoded reads texts Ht).
  pose proof (decoded_whole reads texts _ Ht Hw) as Hc.
  pose proof (feed_pieces texts [] eq_refl) as H.
  destruct (feed [] texts) as [lines rest].
  cbn [app] in H. rewrite Hc, split_lines in H by exact Hls.
  apply app_inj_tail in H as [-> ->]. reflexivity.
Qed.

(** Two lines, the second with an [é] in it, cut in the middle of a
    terminator and of a word. *)
Lemma terminated_lines_are_yielded_witness :
  feed_bytes []
    [lit "PING :abc" ++ [13%N];
     10%N :: lit ":nick!user@host PRIVMSG #help :!weather Orl" ++ [195; 169]%N;
     lit "ans" ++ crlf]
  = ([lit "PING :abc";
      lit ":nick!user@host PRIVMSG #help :!weather Orl" ++ [233%N]
        ++ lit "ans"], []).
Proof.
  apply (terminated_lines_are_yielded
           [lit "PING :abc";
            lit ":nick!user@host PRIVMSG #help :!weather Orl" ++ [233%N]
              ++ lit "ans"]);
    [repeat constructor | repeat constructor; discriminate
     | vm_compute; reflexivity].
Defined.

(** ** The dispatch and the handler of decoding errors *)

Lemma only_raises_ret {A} (Q : exn -> Prop) (a : A) : only_raises Q (ret a).
Proof. intros e H. discriminate. Qed.

Lemma only_raises_bind {A B} (Q : exn -> Prop) (m : M A) (f : A -> M B) :
  only_raises Q m -> (forall a, only_raises Q (f a)) ->
  only_raises Q (bind m f).
Proof.
  intros Hm Hf e. destruct m as [tr [e'|a]]; cbn [bind].
  - intros H. apply (Hm e). cbn [snd] in *. congruence.
  - specialize (Hf a e). destruct (f a) as [tr' r]. exact Hf.
Qed.

Lemma only_raises_index {A} (l : list A) (i : nat) :
  only_raises (fun e => e <> UnicodeDecodeError) (index l i).
Proof.
  intros e. unfold index. destruct (nth_error l i); cbn; congruence.
Qed.

Lemma only_raises_for_each {A} (Q : exn -> Prop) (l : list A)
    (body : A -> M unit) :
  (forall x, only_raises Q (body x)) -> only_raises Q (for_each l body).
Proof.
  intros H. induction l as [|x l IH]; [apply only_raises_ret|].
  cbn [for_each]. apply only_raises_bind; auto.
Qed.

Lemma handle_command_only_raises get_weather (target message : str) :
  only_raises (fun e => e <> UnicodeDecodeError)
    (handle_command get_weather target message).
Proof.
  intros e. unfold handle_command.
  destruct (startswith message (lit "!weather")).
  - destruct (1 <? length (split_ws message)); discriminate.
  - destruct (eqb message (lit "!help")); discriminate.
Qed.

(** The dispatch of a line raises no decoding error. *)
Lemma process_line_only_raises self get_weather (line : str) :
  only_raises (fun e => e <> UnicodeDecodeError)
    (process_line self get_weather line).
Proof.
  unfold process_line, handle_ping, handle_privmsg, message_of, target_of.
  apply only_raises_bind.
  - destruct (startswith line (lit "PING")); [|apply only_raises_ret].
    apply only_raises_bind; [apply only_raises_index|].
    intros token e H. discriminate.
  - intros _. destruct (contains line (lit "PRIVMSG"));
      [|apply only_raises_ret].
    apply only_raises_bind; [apply only_raises_index|]. intros target.
    destruct (mem target (channels self)); [|apply only_raises_ret].
    apply only_raises_bind.
    + apply only_raises_bind; [apply only_raises_index|]. intros after.
      apply only_raises_bind; [apply only_raises_index|]. intros text.
      apply only_raises_ret.
    + intros message. apply handle_command_only_raises.
Qed.

Lemma bind_ext {A B} (m : M A) (f g : A -> M B) :
  (forall a, f a = g a) -> bind m f = bind m g.
Proof. intros H. destruct m as [tr [e|a]]; cbn [bind]; now rewrite ?H. Qed.

(** On a chunk a turn of the read loop is the framing and the dispatch: the
    handler of decoding errors has nothing to catch. *)
Lemma active_turn_chunk self get_weather (buffer chunk : str) :
  active_turn self get_weather buffer (Chunk chunk)
  = bind (for_each (fst (frame buffer chunk)) (process_line self get_weather))
         (fun _ => ret (snd (frame buffer chunk))).
Proof.
  unfold active_turn, read_dispatch. cbn [recv_decode]. rewrite bind_ret.
  destruct (frame buffer chunk) as [lines rest]. cbn [fst snd].
  pose proof (only_raises_for_each (fun e => e <> UnicodeDecodeError) lines
                (process_line self get_weather)
                (process_line_only_raises self get_weather)) as H.
  destruct (for_each lines (process_line self get_weather)) as [tr [e|[]]];
    cbn [bind]; [|reflexivity].
  specialize (H e eq_refl). destruct e; try reflexivity. congruence.
Qed.

(** The read loop over chunks is the dispatch of the lines the framing
    yields. *)
Lemma active_loop_feed self get_weather (chunks : list str) : forall buffer,
  active_loop self get_weather buffer (map Chunk chunks)
  = bind (for_each (fst (feed buffer chunks)) (process_line self get_weather))
         (fun _ => ret (snd (feed buffer chunks))).
Proof.
  induction chunks as [|chunk chunks IH]; intros buffer.
  - cbn. reflexivity.
  - cbn [map active_loop feed]. rewrite active_turn_chunk, bind_assoc.
    destruct (frame buffer chunk) as [lines rest]. cbn [fst snd].
    specialize (IH rest). destruct (feed rest chunks) as [lines' rest'].
    cbn [fst snd] in *. rewrite for_each_app, bind_assoc.
    apply bind_ext. intros []. now rewrite bind_ret.
Qed.

Lemma feed_whole (chunks : list str) :
  feed [] chunks
  = (removelast (split (concat chunks) crlf),
     last (split (concat chunks) crlf) []).
Proof.
  pose proof (feed_pieces chunks [] eq_refl) as H.
  destruct (feed [] chunks) as [lines rest]. cbn [app] in H.
  rewrite <- H. now rewrite removelast_last, last_last.
Qed.

(** X3.  What the read loop does with the bytes it receives does not depend
    on how the reads cut them, as long as every read decodes: it dispatches,
    in order, the lines the whole text holds and keeps what follows the last
    terminator; two such ways of cutting the same bytes give the same
    replies, the same exception if any, and the same buffer. *)
Theorem replies_ignore_chunking self get_weather
    (reads1 reads2 : list (list N)) (text : str) :
  Forall (fun bs => utf8_decode bs <> None) reads1 ->
  Forall (fun bs => utf8_decode bs <> None) reads2 ->
  concat reads1 = concat reads2 ->
  utf8_decode (concat reads1) = Some text ->
  active_loop self get_weather [] (map recv_bytes reads1)
  = active_loop self get_weather [] (map recv_bytes reads2)
  /\ active_loop self get_weather [] (map recv_bytes reads1)
     = bind (for_each (removelast (split text crlf))
               (process_line self get_weather))
            (fun _ => ret (last (split text crlf) [])).
Proof.
  intros H1 H2 Hc Hw.
  destruct (decoded_reads reads1 H1) as [texts1 Ht1].
  destruct (decoded_reads reads2 H2) as [texts2 Ht2].
  pose proof (decoded_whole reads1 texts1 text Ht1 Hw) as E1.
  rewrite Hc in Hw.
  pose proof (decoded_whole reads2 texts2 text Ht2 Hw) as E2.
  rewrite (recv_bytes_decoded reads1 texts1 Ht1).
  rewrite (recv_bytes_decoded reads2 texts2 Ht2).
  rewrite !active_loop_feed, !feed_whole, E1, E2. cbn [fst snd].
  split; reflexivity.
Qed.

(** A command to look up [Orléans] in one read, and cut in three, the two
    bytes of the [é] in the same read. *)
Lemma replies_ignore_chunking_witness :
  active_loop WeatherBot_init (fun city => city) []
    (map recv_bytes
       [lit ":nick!user@host PRIV";
        lit "MSG #help :!weather Orl" ++ [195; 169]%N;
        lit "ans" ++ [13; 10]%N])
  = active_loop WeatherBot_init (fun city => city) []
      (map recv_bytes
         [lit ":nick!user@host PRIVMSG #help :!weather Orl" ++ [195; 169]%N
            ++ lit "ans" ++ [13; 10]%N]).
Proof.
  apply (replies_ignore_chunking WeatherBot_init (fun city => city)
           [lit ":nick!user@host PRIV";
            lit "MSG #help :!weather Orl" ++ [195; 169]%N;
            lit "ans" ++ [13; 10]%N]
           [lit ":nick!user@host PRIVMSG #help :!weather Orl" ++ [195; 169]%N
              ++ lit "ans" ++ [13; 10]%N]
           (lit ":nick!user@host PRIVMSG #help :!weather Orl" ++ [233%N]
              ++ lit "ans" ++ crlf)).
  - repeat constructor; discriminate.
  - repeat constructor; discriminate.
  - reflexivity.
  - reflexivity.
Defined.

Lemma active_loop_app self get_weather (reads1 reads2 : list recv_result) :
  forall buffer,
    active_loop self get_weather buffer (reads1 ++ reads2)
    = bind (active_loop self get_weather buffer reads1)
           (fun buffer' => active_loop self get_weather buffer' reads2).
Proof.
  induction reads1 as [|r reads1 IH]; intros buffer.
  - cbn [app active_loop]. now rewrite bind_ret.
  - cbn [app active_loop]. rewrite bind_assoc. apply bind_ext. exact IH.
Qed.

(** X5.  A read that fails to decode ends neither loop and sends nothing,
    but the text buffered so far is lost.  In the read loop the whole lines
    read before the error are dispatched, the unfinished line that was
    waiting in the buffer is dropped, and the reads after the error are
    handled as by a loop that starts with the empty buffer; the
    registration loop likewise goes on from the empty buffer. *)
Theorem decoding_error_drops_buffer self get_weather
    (before : list str) (after : list recv_result) (buffer : str) :
  active_loop self get_weather []
    (map Chunk before ++ Raises UnicodeDecodeError :: after)
  = bind (for_each (removelast (split (concat before) crlf))
            (process_line self get_weather))
         (fun _ => active_loop self get_weather [] after)
  /\ registration_loop buffer (Raises UnicodeDecodeError :: after)
     = registration_loop [] after.
Proof.
  split.
  - rewrite active_loop_app, active_loop_feed, feed_whole, bind_assoc.
    cbn [fst snd]. apply bind_ext. intros []. rewrite bind_ret.
    cbn [active_loop].
    change (active_turn self get_weather
              (last (split (concat before) crlf) [])
              (Raises UnicodeDecodeError))
      with (ret (A := str) []).
    now rewrite bind_ret.
  - cbn [registration_loop].
    change (registration_turn buffer (Raises UnicodeDecodeError))
      with (ret (Waiting [])).
    now rewrite bind_ret.
Qed.

(** ** Keep-alive *)

Lemma split_ws_two (w1 w2 rest : str) (c : char) :
  w1 <> [] -> no_space w1 = true -> isspace c = true ->
  w2 <> [] -> no_space w2 = true ->
  (rest = [] \/ exists d r, rest = d :: r /\ isspace d = true) ->
  nth_error (split_ws (w1 ++ c :: w2 ++ rest)) 1 = Some w2.
Proof.
  intros H1 H2 Hc H3 H4 [-> | (d & r & -> & Hd)].
  - rewrite app_nil_r, split_ws_word, split_ws_last_word by assumption.
    reflexivity.
  - rewrite !split_ws_word by assumption. reflexivity.
Qed.

(** X6.  In the read loop a line that starts with [PING], a space and a
    word is answered with [PONG] and that word, whatever follows the word
    after whitespace; the answer is the first thing done with the line. *)
Theorem ping_line_gets_pong self get_weather (token rest : str) :
  token <> [] -> no_space token = true ->
  (rest = [] \/ exists d r, rest = d :: r /\ isspace d = true) ->
  handle_ping (lit "PING " ++ token ++ rest)
  = ([Send (lit "PONG " ++ token)], inr tt)
  /\ exists tr r,
       process_line self get_weather (lit "PING " ++ token ++ rest)
       = (Send (lit "PONG " ++ token) :: tr, r).
Proof.
  intros Hn Ht Hr.
  assert (H : handle_ping (lit "PING " ++ token ++ rest)
              = ([Send (lit "PONG " ++ token)], inr tt)).
  { unfold handle_ping.
    change (lit "PING " ++ token ++ rest)
      with (lit "PING" ++ 32%N :: token ++ rest).
    replace (startswith (lit "PING" ++ 32%N :: token ++ rest) (lit "PING"))
      with true
      by (symmetry; apply startswith_spec; now exists (32%N :: token ++ rest)).
    unfold index.
    rewrite split_ws_two; [|discriminate|reflexivity|reflexivity
                           |assumption|assumption|assumption].
    now rewrite bind_ret. }
  split; [exact H|].
  unfold process_line. apply bind_first. rewrite H. eauto.
Qed.

(** [PING :irc.server.com] *)
Lemma ping_line_gets_pong_witness :
  handle_ping (lit "PING :irc.server.com")
  = ([Send (lit "PONG :irc.server.com")], inr tt).
Proof.
  apply (ping_line_gets_pong WeatherBot_init (fun city => city)
           (lit ":irc.server.com") []);
    [discriminate | reflexivity | now left].
Defined.

(** X7.  When the text read during registration starts with [PING], a
    space and a word followed by a terminator, the bot sends [PONG] with
    that word before it looks for [001] or an error: also when the same
    text holds [001], and also when it holds [ERROR]. *)
Theorem registration_answers_first_ping (token rest : str) :
  token <> [] -> no_space token = true ->
  registration_turn [] (Chunk (lit "PING " ++ token ++ crlf ++ rest))
  = if contains (lit "PING " ++ token ++ crlf ++ rest) (lit "001")
    then ([Send (lit "PONG " ++ token)], inr Registered)
    else if contains (lit "PING " ++ token ++ crlf ++ rest)
              (lit "Closing Link")
            || contains (lit "PING " ++ token ++ crlf ++ rest) (lit "ERROR")
    then ([Send (lit "PONG " ++ token); Sleep registration_retry_delay],
          inr Abandoned)
    else ([Send (lit "PONG " ++ token)],
          inr (Waiting (lit "PING " ++ token ++ crlf ++ rest))).
Proof.
  intros Hn Ht. unfold registration_turn, registration_body.
  cbn [recv_decode]. rewrite bind_ret. cbn [app].
  set (buffer := lit "PING " ++ token ++ crlf ++ rest).
  assert (Hs : startswith buffer (lit "PING") = true).
  { apply startswith_spec. now exists (32%N :: token ++ crlf ++ rest). }
  assert (Ho : occurrence buffer (lit "PING") = Some 0)
    by (now apply occurrence_startswith).
  unfold contains at 1, find. rewrite Ho.
  change (slice_from buffer (Z.of_nat 0)) with buffer.
  unfold index.
  replace (nth_error (split_ws buffer) 1) with (Some token).
  2:{ symmetry. unfold buffer.
      change (lit "PING " ++ token ++ crlf ++ rest)
        with (lit "PING" ++ 32%N :: token ++ (13%N :: 10%N :: rest)).
      apply split_ws_two; try assumption; try discriminate; try reflexivity.
      right. now exists 13%N, (10%N :: rest). }
  rewrite bind_ret.
  destruct (contains buffer (lit "001")); [reflexivity|].
  destruct (contains buffer (lit "Closing Link") || contains buffer (lit "ERROR"));
    reflexivity.
Qed.

(** The server's first text is a [PING], and its welcome comes with it. *)
Lemma registration_answers_first_ping_witness :
  registration_turn []
    (Chunk (lit "PING " ++ lit ":12345" ++ crlf
            ++ lit ":irc.server.com 001 WeatherBot :Welcome" ++ crlf))
  = ([Send (lit "PONG :12345")], inr Registered).
Proof.
  rewrite (registration_answers_first_ping (lit ":12345")
             (lit ":irc.server.com 001 WeatherBot :Welcome" ++ crlf));
    [reflexivity | discriminate | reflexivity].
Defined.

(** ** The city of the weather command *)

Lemma split_ws_aux_words (s : str) :
  no_space (fst (split_ws_aux s)) = true
  /\ Forall word (snd (split_ws_aux s)).
Proof.
  induction s as [|c s [IH1 IH2]]; [split; [reflexivity | constructor]|].
  cbn [split_ws_aux]. destruct (split_ws_aux s) as [w ws]. cbn [fst snd] in *.
  destruct (isspace c) eqn:E; cbn [fst snd].
  - split; [reflexivity|]. destruct w; [exact IH2|].
    constructor; [split; [discriminate | exact IH1] | exact IH2].
  - split; [|exact IH2]. unfold no_space in *. cbn [forallb].
    now rewrite E, IH1.
Qed.

(** [s.split()] gives words. *)
Lemma split_ws_words (s : str) : Forall word (split_ws s).
Proof.
  unfold split_ws. destruct (split_ws_aux_words s) as [H1 H2].
  destruct (split_ws_aux s) as [w ws]. cbn [fst snd] in *.
  destruct w; [exact H2|].
  constructor; [split; [discriminate | exact H1] | exact H2].
Qed.

(** Words joined by single spaces split into the same words. *)
Lemma split_ws_join (ws : list str) :
  Forall word ws -> split_ws (join (lit " ") ws) = ws.
Proof.
  induction 1 as [|w ws [Hn Hw] Hws IH]; [reflexivity|].
  destruct ws as [|w' ws].
  - now apply split_ws_last_word.
  - change (join (lit " ") (w :: w' :: ws))
      with (w ++ 32%N :: join (lit " ") (w' :: ws)).
    rewrite split_ws_word by (assumption || reflexivity). now rewrite IH.
Qed.

Lemma join_words_nonempty (sep : str) (ws : list str) :
  ws <> [] -> Forall word ws -> join sep ws <> [].
Proof.
  intros Hn H. destruct H as [|w ws [Hw _] _]; [congruence|].
  destruct w as [|c w]; [congruence|]. destruct ws; discriminate.
Qed.

(** X8.  For a message made of [!weather], a whitespace character and more
    text, the city that is looked up is the words of that text joined by
    single spaces: whitespace around and between the words does not count,
    the city is never empty, and it has the same words as the text.  When
    the text holds no word the usage text is sent and nothing is looked
    up. *)
Theorem weather_city_is_normalised
    (get_weather : str -> str) (target rest : str) (c : char) :
  isspace c = true ->
  handle_command get_weather target (lit "!weather" ++ c :: rest)
  = match split_ws rest with
    | [] => ([Send (lit "PRIVMSG " ++ target ++ lit " :" ++ usage)], inr tt)
    | _ :: _ =>
      ([Lookup (join (lit " ") (split_ws rest));
        Send (lit "PRIVMSG " ++ target ++ lit " :"
                ++ get_weather (join (lit " ") (split_ws rest)))],
       inr tt)
    end
  /\ (split_ws rest <> [] -> join (lit " ") (split_ws rest) <> [])
  /\ split_ws (join (lit " ") (split_ws rest)) = split_ws rest.
Proof.
  intros Hc. split; [|split].
  - unfold handle_command.
    replace (startswith (lit "!weather" ++ c :: rest) (lit "!weather"))
      with true
      by (symmetry; apply startswith_spec; now exists (c :: rest)).
    rewrite split_ws_word; [|discriminate|reflexivity|exact Hc].
    cbn [length skipn]. destruct (split_ws rest); reflexivity.
  - intros H. apply join_words_nonempty; [exact H | apply split_ws_words].
  - apply split_ws_join, split_ws_words.
Qed.

(** [!weather], a tab, and a city written with two spaces. *)
Lemma weather_city_is_normalised_witness :
  handle_command (fun city => city) (lit "#help")
    (lit "!weather" ++ 9%N :: lit " New  York ")
  = ([Lookup (lit "New York"); Send (lit "PRIVMSG #help :New York")],
     inr tt).
Proof.
  destruct (weather_city_is_normalised (fun city => city) (lit "#help")
              (lit " New  York ") 9%N eq_refl) as [H _].
  etransitivity; [exact H | vm_compute; reflexivity].
Defined.

(** ** Traces *)

Lemma fst_bind {A B} (m : M A) (f : A -> M B) :
  fst (bind m f)
  = fst m ++ match snd m with inl _ => [] | inr a => fst (f a) end.
Proof.
  destruct m as [tr [e|a]]; cbn [bind fst snd]; [now rewrite app_nil_r|].
  now destruct (f a).
Qed.

Lemma snd_bind {A B} (m : M A) (f : A -> M B) :
  snd (bind m f)
  = match snd m with inl e => inl e | inr a => snd (f a) end.
Proof.
  destruct m as [tr [e|a]]; cbn [bind fst snd]; [reflexivity|].
  now destruct (f a).
Qed.

Lemma Forall_bind {A B} (P : action -> Prop) (m : M A) (f : A -> M B) :
  Forall P (fst m) -> (forall a, Forall P (fst (f a))) ->
  Forall P (fst (bind m f)).
Proof.
  intros Hm Hf. rewrite fst_bind. apply Forall_app. split; [exact Hm|].
  destruct (snd m); [constructor | apply Hf].
Qed.

Lemma Forall_for_each {A} (P : action -> Prop) (l : list A)
    (body : A -> M unit) :
  (forall x, Forall P (fst (body x))) -> Forall P (fst (for_each l body)).
Proof.
  intros H. induction l as [|x l IH]; [constructor|].
  cbn [for_each]. apply Forall_bind; auto.
Qed.

Lemma Forall_index {A} (P : action -> Prop) (l : list A) (i : nat) :
  Forall P (fst (index l i)).
Proof. unfold index. destruct (nth_error l i); constructor. Qed.




Lemma session_action_pong self (token : str) :
  session_action self (Send (lit "PONG " ++ token)).
Proof. split; reflexivity. Qed.

Lemma session_action_privmsg self (target text : str) :
  mem target (channels self) = true ->
  session_action self (Send (lit "PRIVMSG " ++ target ++ lit " :" ++ text)).
Proof.
  intros H. split; [|reflexivity]. cbn [bot_command].
  apply orb_true_iff. right. apply existsb_exists.
  apply existsb_exists in H as (channel & Hin & Heq).
  apply eqb_eq in Heq as <-. exists target. split; [exact Hin|].
  apply startswith_spec. exists text. now rewrite <- !app_assoc.
Qed.

Lemma handle_command_trace self get_weather (target message : str) :
  mem target (channels self) = true ->
  Forall (session_action self)
    (fst (handle_command get_weather target message)).
Proof.
  intros H. unfold handle_command, send_message, send, emit.
  destruct (startswith message (lit "!weather")).
  - destruct (1 <? length (split_ws message)); cbn [bind fst app].
    + constructor; [split; reflexivity|].
      constructor; [now apply session_action_privmsg | constructor].
    + constructor; [now apply session_action_privmsg | constructor].
  - destruct (eqb message (lit "!help")); cbn [fst ret];
      [|constructor].
    constructor; [now apply session_action_privmsg | constructor].
Qed.

Lemma process_line_trace self get_weather (line : str) :
  Forall (session_action self) (fst (process_line self get_weather line)).
Proof.
  unfold process_line, handle_ping, handle_privmsg, message_of, target_of.
  apply Forall_bind.
  - destruct (startswith line (lit "PING")); [|constructor].
    apply Forall_bind; [apply Forall_index|]. intros token.
    constructor; [apply session_action_pong | constructor].
  - intros _. destruct (contains line (lit "PRIVMSG")); [|constructor].
    apply Forall_bind; [apply Forall_index|]. intros target.
    destruct (mem target (channels self)) eqn:E; [|constructor].
    apply Forall_bind.
    + apply Forall_bind; [apply Forall_index|]. intros after.
      apply Forall_bind; [apply Forall_index|]. intros text. constructor.
    + intros message. now apply handle_command_trace.
Qed.

Lemma active_turn_trace self get_weather (buffer : str) (r : recv_result) :
  Forall (session_action self) (fst (active_turn self get_weather buffer r)).
Proof.
  destruct r as [chunk|e].
  - rewrite active_turn_chunk. apply Forall_bind; [|intros; constructor].
    apply Forall_for_each, process_line_trace.
  - destruct e; constructor.
Qed.

Lemma active_loop_trace self get_weather (reads : list recv_result) :
  forall buffer,
    Forall (session_action self)
      (fst (active_loop self get_weather buffer reads)).
Proof.
  induction reads as [|r reads IH]; intros buffer; [constructor|].
  cbn [active_loop]. apply Forall_bind; [apply active_turn_trace | apply IH].
Qed.

(** A turn of the registration loop never raises; what it does is sending
    [PONG] and pausing, and it pauses when it gives the attempt up. *)
Lemma registration_turn_cases self (buffer : str) (r : recv_result) :
  exists tr st,
    registration_turn buffer r = (tr, inr st)
    /\ Forall (session_action self) tr
    /\ (st = Abandoned -> existsb long_pause tr = true).
Proof.
  assert (Hs : session_action self (Sleep registration_retry_delay))
    by (split; reflexivity).
  unfold registration_turn, registration_body. destruct r as [temp|e].
  - cbn [recv_decode]. rewrite bind_ret.
    destruct (contains (buffer ++ temp) (lit "PING")).
    + unfold index.
      destruct (nth_error _ 1) as [token|].
      * rewrite bind_ret. unfold send, emit. cbn [bind].
        destruct (contains (buffer ++ temp) (lit "001")).
        -- eexists _, _. split; [reflexivity|]. split; [|discriminate].
           constructor; [apply session_action_pong | constructor].
        -- destruct (_ || _).
           ++ eexists _, _. split; [reflexivity|]. split; [|reflexivity].
              constructor; [apply session_action_pong|].
              constructor; [exact Hs | constructor].
           ++ eexists _, _. split; [reflexivity|]. split; [|discriminate].
              constructor; [apply session_action_pong | constructor].
      * eexists _, _. split; [reflexivity|]. split; [|reflexivity].
        constructor; [exact Hs | constructor].
    + rewrite bind_ret. destruct (contains (buffer ++ temp) (lit "001")).
      * eexists _, _. split; [reflexivity|]. split; [constructor|discriminate].
      * destruct (_ || _).
        -- eexists _, _. split; [reflexivity|]. split; [|reflexivity].
           constructor; [exact Hs | constructor].
        -- eexists _, _. split; [reflexivity|].
           split; [constructor|discriminate].
  - destruct e; eexists _, _; (split; [reflexivity|]);
      (split; [repeat constructor | try discriminate; reflexivity]).
Qed.

Lemma registration_loop_cases self (reads : list recv_result) :
  forall buffer, exists tr st rest,
    registration_loop buffer reads = (tr, inr (st, rest))
    /\ Forall (session_action self) tr
    /\ (st = Abandoned -> existsb long_pause tr = true).
Proof.
  induction reads as [|r reads IH]; intros buffer.
  - exists [], (Waiting buffer), []. split; [reflexivity|].
    split; [constructor | discriminate].
  - cbn [registration_loop].
    destruct (registration_turn_cases self buffer r) as (tr & st & -> & Ht & Hp).
    cbn [bind]. destruct st as [buffer'| |].
    + destruct (IH buffer') as (tr' & st' & rest & -> & Ht' & Hp').
      exists (tr ++ tr'), st', rest. split; [reflexivity|].
      split; [now apply Forall_app|]. intros H.
      rewrite existsb_app, (Hp' H). apply orb_true_r.
    + exists (tr ++ []), Registered, reads. split; [reflexivity|].
      split; [now rewrite app_nil_r | discriminate].
    + exists (tr ++ []), Abandoned, reads. split; [reflexivity|].
      rewrite app_nil_r. split; [exact Ht | exact Hp].
Qed.

(** What [connect] does: it opens the connection, and then sends, pauses
    and waits; when it returns [False] it has paused. *)
Lemma connect_shape self (sock : socket) :
  exists body,
    fst (connect self sock) = Connect (server self) (port self) :: body
    /\ Forall (session_action self) body
    /\ (snd (connect self sock) = inr ConnectFalse ->
        existsb long_pause body = true).
Proof.
  unfold connect. destruct (refused sock) as [e|].
  - exists []. cbn. split; [reflexivity|]. split; [constructor|discriminate].
  - unfold send, emit. cbn [bind].
    destruct (registration_loop_cases self (inbound sock) [])
      as (tr & st & rest & -> & Ht & Hp).
    cbn [bind]. destruct st as [buffer| |].
    + eexists. split; [reflexivity|]. cbn [app snd].
      split; [|discriminate].
      constructor; [split; reflexivity|].
      constructor; [split; reflexivity|]. now rewrite app_nil_r.
    + rewrite for_each_join. cbn [bind ret app snd].
      eexists. split; [reflexivity|]. split; [|discriminate].
      constructor; [split; reflexivity|].
      constructor; [split; reflexivity|].
      apply Forall_app. split; [exact Ht|]. rewrite app_nil_r.
      induction (channels self) as [|channel l IH]; [constructor|].
      cbn [flat_map app].
      constructor; [split; reflexivity|].
      constructor; [split; reflexivity | exact IH].
    + eexists. split; [reflexivity|]. cbn [app snd].
      split.
      * constructor; [split; reflexivity|].
        constructor; [split; reflexivity|]. now rewrite app_nil_r.
      * intros _. cbn [existsb long_pause orb]. rewrite app_nil_r.
        now apply Hp.
Qed.

Lemma attempt_shape self get_weather (sock : socket) :
  exists body,
    fst (attempt self get_weather sock)
    = Connect (server self) (port self) :: body
    /\ Forall (session_action self) body
    /\ (snd (attempt self get_weather sock) = inr None ->
        existsb long_pause body = true).
Proof.
  destruct (connect_shape self sock) as (body & Hf & Hb & Hp).
  unfold attempt. rewrite fst_bind, snd_bind, Hf.
  destruct (snd (connect self sock)) as [e|[reads| |buffer]].
  - exists body. rewrite app_nil_r. split; [reflexivity|].
    split; [exact Hb | discriminate].
  - eexists. split; [reflexivity|]. split.
    + apply Forall_app. split; [exact Hb|].
      apply Forall_bind; [apply active_loop_trace | intros; constructor].
    + rewrite snd_bind.
      destruct (snd (active_loop self get_weather [] reads)); discriminate.
  - exists body. cbn [fst ret]. rewrite app_nil_r. split; [reflexivity|].
    split; [exact Hb | intros _; now apply Hp].
  - exists body. cbn [fst ret]. rewrite app_nil_r. split; [reflexivity|].
    split; [exact Hb | discriminate].
Qed.

Lemma run_trace self get_weather (sockets : list socket) :
  Forall (fun a => bot_command self a = true)
    (fst (run self get_weather sockets)).
Proof.
  induction sockets as [|sock sockets IH]; [constructor|].
  cbn [run].
  destruct (attempt_shape self get_weather sock) as (body & Hf & Hb & _).
  assert (Hbody : Forall (fun a => bot_command self a = true) body).
  { eapply Forall_impl; [|exact Hb]. now intros a [H _]. }
  destruct (attempt self get_weather sock) as [tr [e|[b|]]];
    cbn [fst] in Hf; subst tr;
    destruct (run self get_weather sockets) as [tr' b']; cbn [fst] in *.
  - constructor; [reflexivity|]. apply Forall_app. split; [exact Hbody|].
    constructor; [reflexivity | exact IH].
  - constructor; [reflexivity | exact Hbody].
  - constructor; [reflexivity|]. now apply Forall_app.
Qed.

(** C9 (amended).  When the read loop of a registered session raises, the
    session is given up without its socket being closed: the next thing the
    bot does is pause for the cooldown, which is longer than the pause after
    a failed registration, and what it does after the pause is what a bot
    just started does with the sockets that remain; nowhere in a run is a
    socket closed.  Nothing of the old session, buffer or unread input, is
    carried over: in every attempt the bot waits for its first read with the
    empty buffer, in the registration loop and, once registered, in the read
    loop. *)
Theorem reconnect_after_fatal_error self get_weather
    (sock : socket) (socks : list socket) (reads : list recv_result)
    (tr1 tr2 : list action) (e : exn) :
  connect self sock = (tr1, inr (ConnectTrue reads)) ->
  active_loop self get_weather [] reads = (tr2, inl e) ->
  run self get_weather (sock :: socks)
  = ((tr1 ++ tr2)
       ++ Sleep reconnect_cooldown :: fst (run self get_weather socks),
     snd (run self get_weather socks))
  /\ ~ In Close (fst (run self get_weather (sock :: socks)))
  /\ registration_retry_delay < reconnect_cooldown
  /\ (forall next,
        refused next = None -> inbound next = [] ->
        attempt self get_weather next
        = ([Connect (server self) (port self);
            Send (lit "NICK " ++ nickname self);
            Send (lit "USER " ++ nickname self
                    ++ lit " 0 * :MansionNet Weather Information Bot")],
           inr (Some (InRegistration []))))
  /\ (forall next tr,
        connect self next = (tr, inr (ConnectTrue [])) ->
        attempt self get_weather next = (tr, inr (Some (InActive [])))).
Proof.
  intros H1 H2. split; [|split; [|split; [|split]]].
  - apply (run_attempt_raises _ _ _ _ _ e).
    now apply (attempt_active_raises _ _ _ reads).
  - intros Hin.
    pose proof (run_trace self get_weather (sock :: socks)) as H.
    rewrite Forall_forall in H. specialize (H _ Hin). discriminate H.
  - unfold registration_retry_delay, reconnect_cooldown. lia.
  - intros next Hr Hi. unfold attempt, connect. now rewrite Hr, Hi.
  - intros next tr Hc. unfold attempt. rewrite Hc. cbn.
    now rewrite app_nil_r.
Qed.

(** A session that registers and then meets a failing [recv]; the next
    socket is silent. *)
Lemma reconnect_after_fatal_error_witness :
  run WeatherBot_init (fun city => city)
    [ {| refused := None;
         inbound := [Chunk (lit ":irc.server.com 001 WeatherBot :Welcome"
                            ++ crlf);
                     Chunk (lit ":nick!user@host PRIVMSG #help :!he");
                     Raises (OtherError (lit "Connection reset by peer"))] |};
      {| refused := None; inbound := [] |} ]
  = ([Connect (lit "irc.server.com") 6697;
      Send (lit "NICK WeatherBot");
      Send (lit "USER WeatherBot 0 * :MansionNet Weather Information Bot");
      Send (lit "JOIN #help"); Sleep 1;
      Send (lit "JOIN #welcome"); Sleep 1;
      Sleep 30;
      Connect (lit "irc.server.com") 6697;
      Send (lit "NICK WeatherBot");
      Send (lit "USER WeatherBot 0 * :MansionNet Weather Information Bot")],
     Some (InRegistration [])).
Proof.
  destruct (reconnect_after_fatal_error WeatherBot_init (fun city => city)
              {| refused := None;
                 inbound := [Chunk (lit ":irc.server.com 001 WeatherBot :Welcome"
                                    ++ crlf);
                             Chunk (lit ":nick!user@host PRIVMSG #help :!he");
                             Raises (OtherError
                                       (lit "Connection reset by peer"))] |}
              [ {| refused := None; inbound := [] |} ]
              [Chunk (lit ":nick!user@host PRIVMSG #help :!he");
               Raises (OtherError (lit "Connection reset by peer"))]
              [Connect (lit "irc.server.com") 6697;
               Send (lit "NICK WeatherBot");
               Send (lit "USER WeatherBot 0 * :MansionNet Weather Information Bot");
               Send (lit "JOIN #help"); Sleep 1;
               Send (lit "JOIN #welcome"); Sleep 1]
              []
              (OtherError (lit "Connection reset by peer")))
    as (H & _); [vm_compute; reflexivity | vm_compute; reflexivity |].
  rewrite H. vm_compute. reflexivity.
Defined.

(** C9, as stated, fails: the session is not released.  After a reset
    connection the bot pauses and connects anew; it has not closed the
    socket of the session it leaves, which [self.irc] holds through the
    pause, until line 30 of the next [connect] puts a new socket in its
    place. *)
Lemma reconnect_after_fatal_error_counterexample :
  run WeatherBot_init (fun city => city)
    [ {| refused := None;
         inbound := [Chunk (lit ":irc.server.com 001 WeatherBot :Welcome"
                            ++ crlf);
                     Raises (OtherError (lit "Connection reset by peer"))] |};
      {| refused := None; inbound := [] |} ]
  = ([Connect (lit "irc.server.com") 6697;
      Send (lit "NICK WeatherBot");
      Send (lit "USER WeatherBot 0 * :MansionNet Weather Information Bot");
      Send (lit "JOIN #help"); Sleep 1;
      Send (lit "JOIN #welcome"); Sleep 1;
      Sleep 30;
      Connect (lit "irc.server.com") 6697;
      Send (lit "NICK WeatherBot");
      Send (lit "USER WeatherBot 0 * :MansionNet Weather Information Bot")],
     Some (InRegistration []))
  /\ ~ In Close
        [Connect (lit "irc.server.com") 6697;
         Send (lit "NICK WeatherBot");
         Send (lit "USER WeatherBot 0 * :MansionNet Weather Information Bot");
         Send (lit "JOIN #help"); Sleep 1;
         Send (lit "JOIN #welcome"); Sleep 1;
         Sleep 30;
         Connect (lit "irc.server.com") 6697].
Proof.
  split; [vm_compute; reflexivity|].
  cbn [In]. intuition discriminate.
Qed.











(** ** Pauses between connections *)

Lemma paced_app (tr1 tr2 : list action) : forall rested,
  Forall (fun a => is_connect a = false) tr1 ->
  paced rested (tr1 ++ tr2)
  = paced (rested || existsb long_pause tr1) tr2.
Proof.
  induction tr1 as [|a tr1 IH]; intros rested H.
  - cbn. now rewrite orb_false_r.
  - inversion H as [|? ? Ha Ht]; subst. cbn [app existsb].
    destruct a; try discriminate Ha; cbn [paced];
      rewrite (IH _ Ht); now rewrite orb_assoc.
Qed.

(** X10.  The bot never opens a connection right after another: between
    two connection attempts it has always paused for at least the five
    seconds of the registration retry (thirty after an exception),
    whatever the server does. *)
Theorem reconnects_are_paced self get_weather (sockets : list socket) :
  paced true (fst (run self get_weather sockets)) = true.
Proof.
  induction sockets as [|sock sockets IH]; [reflexivity|].
  cbn [run].
  destruct (attempt_shape self get_weather sock) as (body & Hf & Hb & Hp).
  assert (Hbody : Forall (fun a => is_connect a = false) body).
  { eapply Forall_impl; [|exact Hb]. now intros a [_ H]. }
  destruct (attempt self get_weather sock) as [tr [e|[b|]]];
    cbn [fst snd] in Hf, Hp; subst tr;
    destruct (run self get_weather sockets) as [tr' b']; cbn [fst] in *.
  - cbn [app paced andb]. rewrite paced_app by exact Hbody.
    cbn [paced long_pause]. unfold reconnect_cooldown.
    cbn [registration_retry_delay Nat.leb]. now rewrite orb_true_r.
  - cbn [paced andb]. rewrite <- (app_nil_r body).
    now rewrite paced_app by exact Hbody.
  - cbn [app paced andb]. rewrite paced_app by exact Hbody.
    now rewrite (Hp eq_refl).
Qed.

(** ** The geocoding and the weather codes *)

Lemma subscript_get (data : json) (key : str) (v : json) :
  subscript data key = inr v -> get data key = inr v.
Proof.
  destruct data; try discriminate. cbn.
  destruct (lookup key members); [congruence | discriminate].
Qed.

Lemma get_subscript (data : json) (key : str) (v w : json) :
  get data key = inr v -> subscript data key = inr w -> v = w.
Proof.
  intros H1 H2. apply subscript_get in H2. congruence.
Qed.

(** X11.  The geocoding gives a place exactly when the request returns
    with status 200, its body decodes to an object whose [results] is
    truthy and has a first element, and that element has the four fields
    [latitude], [longitude], [name] and [country]; the place is made of
    these four values.  In every other case (the request or the decoding
    raises, another status, no or empty [results], a field missing) it gives
    [None]. *)
Theorem get_coordinates_found
    (requests_get : str -> result response) (city : str) (place : location) :
  get_coordinates requests_get city = Some place <->
  exists answer data results first,
    requests_get (geocoding_url city) = inr answer
    /\ json_body answer = inr data
    /\ status_code answer = 200%Z
    /\ subscript data (lit "results") = inr results
    /\ truthy results = true
    /\ subscript0 results = inr first
    /\ subscript first (lit "latitude") = inr (lat place)
    /\ subscript first (lit "longitude") = inr (lon place)
    /\ subscript first (lit "name") = inr (name place)
    /\ subscript first (lit "country") = inr (country place).
Proof.
  unfold get_coordinates. split.
  - destruct (requests_get (geocoding_url city)) as [e|answer];
      cbn [bind_result]; [discriminate|].
    destruct (json_body answer) as [e|data] eqn:Ed;
      cbn [bind_result]; [discriminate|].
    destruct (Z.eqb_spec (status_code answer) 200) as [Es|]; [|discriminate].
    destruct (get data (lit "results")) as [e|r] eqn:Eg;
      cbn [bind_result]; [discriminate|].
    destruct (truthy r) eqn:Et; [|discriminate].
    destruct (subscript data (lit "results")) as [e|results] eqn:Er;
      cbn [bind_result]; [discriminate|].
    destruct (subscript0 results) as [e|first] eqn:Ef;
      cbn [bind_result]; [discriminate|].
    destruct (subscript first (lit "latitude")) as [e|v1] eqn:E1;
      cbn [bind_result]; [discriminate|].
    destruct (subscript first (lit "longitude")) as [e|v2] eqn:E2;
      cbn [bind_result]; [discriminate|].
    destruct (subscript first (lit "name")) as [e|v3] eqn:E3;
      cbn [bind_result]; [discriminate|].
    destruct (subscript first (lit "country")) as [e|v4] eqn:E4;
      cbn [bind_result]; [discriminate|].
    intros H. injection H as <-. cbn [lat lon name country].
    exists answer, data, results, first.
    assert (r = results) as -> by exact (get_subscript _ _ _ _ Eg Er).
    repeat split; auto.
  - intros (answer & data & results & first
            & -> & Hd & Hs & Hr & Ht & Hf & H1 & H2 & H3 & H4).
    cbn [bind_result]. rewrite Hd, Hs. cbn [bind_result Z.eqb Pos.eqb].
    rewrite (subscript_get _ _ _ Hr). cbn [bind_result].
    rewrite Ht, Hr. cbn [bind_result]. rewrite Hf. cbn [bind_result].
    rewrite H1, H2, H3, H4. cbn [bind_result]. now destruct place.
Qed.

(** The answer of the geocoding service for Paris. *)
Lemma get_coordinates_found_witness :
  get_coordinates (sample_requests_get (inr forecast_overcast)) (lit "Paris")
  = Some paris.
Proof.
  apply (get_coordinates_found (sample_requests_get (inr forecast_overcast))
           (lit "Paris") paris).
  exists geocoding_paris.
  eexists. eexists. eexists.
  repeat split; vm_compute; reflexivity.
Defined.

(** X12.  When the geocoding request fails, by an exception, by a status
    other than 200 or by a body that does not decode, the channel reads
    [Could not find location: city], as it does for an unknown city; the
    forecast service is not asked, and no [Error fetching weather data]
    text is produced for a failure of the first request. *)
Theorem geocoding_failure_reads_not_found
    (requests_get : str -> result response) (py_str : json -> str)
    (exn_str : exn -> str) (city : str) :
  (forall e,
      requests_get (geocoding_url city) = inl e ->
      get_weather requests_get py_str exn_str city = could_not_find city)
  /\ (forall answer,
        requests_get (geocoding_url city) = inr answer ->
        status_code answer <> 200%Z ->
        get_weather requests_get py_str exn_str city = could_not_find city)
  /\ (forall answer e,
        requests_get (geocoding_url city) = inr answer ->
        json_body answer = inl e ->
        get_weather requests_get py_str exn_str city = could_not_find city)
  /\ (forall answer members,
        requests_get (geocoding_url city) = inr answer ->
        json_body answer = inr (JObject members) ->
        lookup (lit "results") members = None ->
        get_weather requests_get py_str exn_str city = could_not_find city).
Proof.
  unfold get_weather, get_coordinates. repeat split.
  - intros e ->. reflexivity.
  - intros answer -> Hs. cbn [bind_result].
    apply Z.eqb_neq in Hs. rewrite Hs.
    now destruct (json_body answer).
  - intros answer e -> Hb. cbn [bind_result]. now rewrite Hb.
  - intros answer members -> Hb Hl. cbn [bind_result]. rewrite Hb.
    cbn [bind_result get]. rewrite Hl.
    cbn [bind_result truthy]. now destruct (status_code answer =? 200)%Z.
Qed.

(** The geocoding service is unreachable. *)
Lemma geocoding_failure_reads_not_found_witness :
  get_weather (fun _ => inl (OtherError (lit "Max retries exceeded")))
    sample_py_str sample_exn_str (lit "Paris")
  = lit "Could not find location: Paris".
Proof.
  destruct (geocoding_failure_reads_not_found
              (fun _ => inl (OtherError (lit "Max retries exceeded")))
              sample_py_str sample_exn_str (lit "Paris")) as [H _].
  apply (H (OtherError (lit "Max retries exceeded"))). reflexivity.
Defined.




(** ** What the bot sends can be encoded *)

Lemma encodable_app (a b : str) :
  encodable (a ++ b) = encodable a && encodable b.
Proof. apply forallb_app. Qed.

Lemma joins_encoded (channels : list str) :
  forallb encodable channels = true ->
  forallb encoded
    (flat_map (fun c => [Send (lit "JOIN " ++ c); Sleep 1]) channels) = true.
Proof.
  induction channels as [|c l IH]; [reflexivity|].
  cbn [forallb flat_map app encoded]. intros H.
  apply andb_true_iff in H as [Hc Hl].
  now rewrite encodable_app, Hc, (IH Hl).
Qed.















(** Where the text of the lookup cannot be encoded (here a lone surrogate,
    which a JSON body can hold), the reply passed to [send] cannot either:
    the encoding of line 85 fails on this call. *)
Example reply_with_a_surrogate :
  fst (handle_command (fun _ => [55296%N]) (lit "#help")
         (lit "!weather Paris"))
  = [Lookup (lit "Paris"); Send (lit "PRIVMSG #help :" ++ [55296%N])]
  /\ encoded (Send (lit "PRIVMSG #help :" ++ [55296%N])) = false.
Proof. split; vm_compute; reflexivity. Qed.

(** ** A whole session *)

Lemma no_space_not_in (w : str) (c : char) :
  no_space w = true -> isspace c = true -> ~ In c w.
Proof.
  intros Hw Hc Hin. unfold no_space in Hw. rewrite forallb_forall in Hw.
  specialize (Hw c Hin). now rewrite Hc in Hw.
Qed.

Lemma no_cr_clean (l : str) : ~ In 13%N l -> occurrence l crlf = None.
Proof.
  induction l as [|x l IH]; intros H; [reflexivity|].
  apply occurrence_none_cons. split.
  - unfold crlf. cbn [startswith].
    destruct (N.eqb_spec 13 x) as [<-|]; [|reflexivity].
    exfalso. apply H. now left.
  - apply IH. intros Hin. apply H. now right.
Qed.

Lemma mem_in (x : str) (l : list str) : In x l -> mem x l = true.
Proof.
  intros H. apply existsb_exists. exists x. split; [exact H|].
  now apply eqb_eq.
Qed.

Lemma weather_text_clean (city : str) :
  contains city (lit "PRIVMSG") = false ->
  contains (lit "!weather " ++ city) (lit "PRIVMSG") = false.
Proof.
  rewrite !contains_false. intros H.
  apply (occurrence_none_through (lit "PRIVMSG") (lit "!weather") city 32%N);
    [discriminate | apply not_in_PRIVMSG; auto | reflexivity | exact H].
Qed.

Lemma weather_text_trimmed (city : str) :
  word city -> strip (lit "!weather " ++ city) = lit "!weather " ++ city.
Proof.
  intros [Hn Hw]. apply strip_trimmed.
  destruct (exists_last Hn) as (l & z & ->).
  unfold no_space in Hw. rewrite forallb_app in Hw.
  apply andb_true_iff in Hw as [_ Hz]. cbn in Hz.
  rewrite andb_true_r in Hz.
  change (lit "!weather " ++ l ++ [z])
    with (33%N :: (lit "weather " ++ l ++ [z])).
  cbn [trimmed].
  change (33%N :: lit "weather " ++ l ++ [z])
    with (lit "!weather " ++ l ++ [z]).
  rewrite app_assoc, last_last. now rewrite Hz.
Qed.

Lemma weather_command_of_word (get_weather : str -> str)
    (target city : str) :
  word city ->
  handle_command get_weather target (lit "!weather " ++ city)
  = ([Lookup city;
      Send (lit "PRIVMSG " ++ target ++ lit " :" ++ get_weather city)],
     inr tt).
Proof.
  intros [Hn Hw]. unfold handle_command.
  change (lit "!weather " ++ city) with (lit "!weather" ++ 32%N :: city).
  replace (startswith (lit "!weather" ++ 32%N :: city) (lit "!weather"))
    with true
    by (symmetry; apply startswith_spec; now exists (32%N :: city)).
  rewrite split_ws_word; [|discriminate|reflexivity|reflexivity].
  rewrite split_ws_last_word by assumption. reflexivity.
Qed.

(** X14.  A whole session: the server welcomes the bot with a text that
    holds [001] and no [PING], and then a user asks, in a configured
    channel, for the weather of a city of one word.  When the nickname, the
    channels and the text the lookup returns can be encoded, the bot
    connects, calls [send] with [NICK] and [USER], then with [JOIN] for each
    of its channels in order, pausing one second after each, looks the city
    up once and calls [send] with the [PRIVMSG] that carries what the lookup
    returned to that channel; it makes no other call, every message of
    these calls can be encoded, and the bot waits for the next read with the
    empty buffer. *)
Theorem weather_request_end_to_end self get_weather
    (welcome origin channel city : str) :
  contains welcome (lit "PING") = false ->
  contains welcome (lit "001") = true ->
  no_space origin = true ->
  contains origin (lit "PRIVMSG") = false ->
  In channel (channels self) -> word channel ->
  contains channel (lit "PRIVMSG") = false ->
  contains channel (lit ":") = false ->
  word city ->
  contains city (lit "PRIVMSG") = false ->
  encodable (nickname self) = true ->
  forallb encodable (channels self) = true ->
  encodable (get_weather city) = true ->
  let trace :=
    [Connect (server self) (port self);
     Send (lit "NICK " ++ nickname self);
     Send (lit "USER " ++ nickname self
             ++ lit " 0 * :MansionNet Weather Information Bot")]
      ++ flat_map (fun c => [Send (lit "JOIN " ++ c); Sleep 1])
           (channels self)
      ++ [Lookup city;
          Send (lit "PRIVMSG " ++ channel ++ lit " :" ++ get_weather city)] in
  run self get_weather
    [ {| refused := None;
         inbound :=
           [Chunk welcome;
            Chunk (privmsg_line origin channel (lit "!weather " ++ city)
                   ++ crlf)] |} ]
  = (trace, Some (InActive []))
  /\ forallb encoded trace = true.
Proof.
  intros Hp H1 Ho Hop Hin [Hcn Hcw] Hcp Hcc Hcity Hyp Hen Hec Hew trace.
  subst trace. split.
  2:{ rewrite !forallb_app, (joins_encoded _ Hec). cbn [forallb encoded].
      rewrite forallb_forall in Hec.
      now rewrite !encodable_app, Hen, Hew, (Hec channel Hin). }
  set (line := privmsg_line origin channel (lit "!weather " ++ city)).
  assert (Hline : process_line self get_weather line
                  = ([Lookup city;
                      Send (lit "PRIVMSG " ++ channel ++ lit " :"
                              ++ get_weather city)], inr tt)).
  { unfold line. rewrite process_privmsg_line by assumption.
    rewrite (mem_in _ _ Hin).
    rewrite message_of_privmsg_line
      by (assumption || now apply weather_text_clean).
    rewrite bind_ret, weather_text_trimmed by exact Hcity.
    now apply weather_command_of_word. }
  assert (Hclean : contains line crlf = false).
  { apply contains_false, no_cr_clean. unfold line.
    rewrite privmsg_line_shape. destruct Hcity as [_ Hyw].
    intros Hi. cbn [app] in Hi.
    destruct Hi as [Hi|Hi]; [discriminate|].
    apply in_app_or in Hi as [Hi|Hi];
      [now apply (no_space_not_in origin 13%N Ho)|].
    destruct Hi as [Hi|Hi]; [discriminate|].
    apply in_app_or in Hi as [Hi|Hi];
      [cbn in Hi; intuition discriminate|].
    destruct Hi as [Hi|Hi]; [discriminate|].
    apply in_app_or in Hi as [Hi|Hi];
      [now apply (no_space_not_in channel 13%N Hcw)|].
    destruct Hi as [Hi|[Hi|Hi]]; try discriminate.
    apply in_app_or in Hi as [Hi|Hi];
      [cbn in Hi; intuition discriminate|].
    now apply (no_space_not_in city 13%N Hyw). }
  assert (Hfeed : feed [] [line ++ crlf] = ([line], [])).
  { pose proof (feed_pieces [line ++ crlf] [] eq_refl) as H.
    destruct (feed [] [line ++ crlf]) as [lines rest].
    cbn [app] in H.
    change (concat [line ++ crlf])
      with (concat (map (fun l => l ++ crlf) [line])) in H.
    rewrite (split_lines [line]) in H by (now repeat constructor).
    apply app_inj_tail in H as [-> ->]. reflexivity. }
  assert (Hactive : active_loop self get_weather [] [Chunk (line ++ crlf)]
                    = ([Lookup city;
                        Send (lit "PRIVMSG " ++ channel ++ lit " :"
                                ++ get_weather city)], inr [])).
  { change [Chunk (line ++ crlf)] with (map Chunk [line ++ crlf]).
    rewrite active_loop_feed, Hfeed. cbn [fst snd for_each].
    rewrite Hline. reflexivity. }
  assert (Hreg : registration_loop [] [Chunk welcome; Chunk (line ++ crlf)]
                 = ([], inr (Registered, [Chunk (line ++ crlf)]))).
  { cbn [registration_loop]. unfold registration_turn, registration_body.
    cbn [recv_decode]. rewrite bind_ret. cbn [app].
    rewrite Hp, H1. reflexivity. }
  cbn [run]. unfold attempt, connect. cbn [refused inbound].
  unfold send, emit. cbn [bind]. rewrite Hreg. cbn [bind app].
  rewrite for_each_join. cbn [bind ret app]. rewrite Hactive.
  cbn [bind app]. rewrite !app_nil_r. reflexivity.
Qed.

(** The session of the sample bot: welcome, then [!weather Paris] in
    [#help], the lookup answering with the sample forecast. *)
Lemma weather_request_end_to_end_witness :
  run WeatherBot_init
    (get_weather (sample_requests_get (inr forecast_overcast))
       sample_py_str sample_exn_str)
    [ {| refused := None;
         inbound :=
           [Chunk (lit ":irc.server.com 001 WeatherBot :Welcome" ++ crlf);
            Chunk (privmsg_line (lit "nick!user@host") (lit "#help")
                     (lit "!weather " ++ lit "Paris") ++ crlf)] |} ]
  = ([Connect (lit "irc.server.com") 6697;
      Send (lit "NICK WeatherBot");
      Send (lit "USER WeatherBot 0 * :MansionNet Weather Information Bot");
      Send (lit "JOIN #help"); Sleep 1;
      Send (lit "JOIN #welcome"); Sleep 1;
      Lookup (lit "Paris");
      Send (lit "PRIVMSG #help :Weather in Paris, France: Overcast, Temperature: 21"
              ++ [176%N] ++ lit "C, Humidity: 40%, Wind: 8 km/h")],
     Some (InActive [])).
Proof.
  destruct (weather_request_end_to_end WeatherBot_init
              (get_weather (sample_requests_get (inr forecast_overcast))
                 sample_py_str sample_exn_str)
              (lit ":irc.server.com 001 WeatherBot :Welcome" ++ crlf)
              (lit "nick!user@host") (lit "#help") (lit "Paris"))
    as [H _];
    [reflexivity | reflexivity | reflexivity | reflexivity
    | now left
    | split; [discriminate | reflexivity]
    | reflexivity | reflexivity
    | split; [discriminate | reflexivity]
    | reflexivity | reflexivity | reflexivity | reflexivity |].
  rewrite H. vm_compute. reflexivity.
Defined.

(** ** Failed connections *)

(** X15.  The two ways a connection attempt fails are retried differently.
    When [connect] on the socket raises, nothing is sent and the bot pauses
    for the cooldown before the next attempt.  When the server answers the
    registration with [ERROR] or [Closing Link] (and no [001]), the bot has
    sent [NICK] and [USER], pauses five seconds only, and goes straight to
    the next attempt, without the cooldown. *)
Theorem failed_connections_are_retried self get_weather
    (sock : socket) (socks : list socket) :
  (forall e,
      refused sock = Some e ->
      run self get_weather (sock :: socks)
      = (Connect (server self) (port self)
           :: Sleep reconnect_cooldown :: fst (run self get_weather socks),
         snd (run self get_weather socks)))
  /\ (forall text reads,
        refused sock = None ->
        inbound sock = Chunk text :: reads ->
        contains text (lit "PING") = false ->
        contains text (lit "001") = false ->
        contains text (lit "Closing Link") || contains text (lit "ERROR")
        = true ->
        run self get_weather (sock :: socks)
        = (Connect (server self) (port self)
             :: Send (lit "NICK " ++ nickname self)
             :: Send (lit "USER " ++ nickname self
                        ++ lit " 0 * :MansionNet Weather Information Bot")
             :: Sleep registration_retry_delay
             :: fst (run self get_weather socks),
           snd (run self get_weather socks))).
Proof.
  split.
  - intros e He. cbn [run]. unfold attempt, connect. rewrite He.
    cbn [emit raise bind app]. now destruct (run self get_weather socks).
  - intros text reads Hr Hi Hp H1 He. cbn [run]. unfold attempt, connect.
    rewrite Hr, Hi. unfold send, emit. cbn [bind registration_loop].
    unfold registration_turn, registration_body. cbn [recv_decode].
    rewrite bind_ret. cbn [app]. rewrite Hp, H1, He.
    cbn [bind emit ret app]. now destruct (run self get_weather socks).
Qed.

(** A refused connection, then a server that is full. *)
Lemma failed_connections_are_retried_witness :
  run WeatherBot_init (fun city => city)
    [ {| refused := Some (OtherError (lit "Connection refused"));
         inbound := [] |};
      {| refused := None;
         inbound := [Chunk (lit "ERROR :Closing Link: server full" ++ crlf)] |} ]
  = ([Connect (lit "irc.server.com") 6697; Sleep 30;
      Connect (lit "irc.server.com") 6697;
      Send (lit "NICK WeatherBot");
      Send (lit "USER WeatherBot 0 * :MansionNet Weather Information Bot");
      Sleep 5],
     None).
Proof.
  destruct (failed_connections_are_retried WeatherBot_init (fun city => city)
              {| refused := Some (OtherError (lit "Connection refused"));
                 inbound := [] |}
              [ {| refused := None;
                   inbound := [Chunk (lit "ERROR :Closing Link: server full"
                                      ++ crlf)] |} ]) as [H1 _].
  rewrite (H1 (OtherError (lit "Connection refused")) eq_refl).
  destruct (failed_connections_are_retried WeatherBot_init (fun city => city)
              {| refused := None;
                 inbound := [Chunk (lit "ERROR :Closing Link: server full"
                                    ++ crlf)] |} []) as [_ H2].
  rewrite (H2 (lit "ERROR :Closing Link: server full" ++ crlf) []);
    reflexivity.
Defined.

(** ** One line, one answer *)

(** X16.  Whatever a line holds, the dispatch does at most three things
    with it, in this order: at most one [PONG]; then at most one reply,
    which goes to a configured channel and is either a fixed text (usage or
    help) or, after exactly one weather lookup, what that lookup returned
    for the city looked up. *)
Theorem line_gets_one_answer self get_weather (line : str) :
  exists pong reply,
    fst (process_line self get_weather line) = pong ++ reply
    /\ (pong = [] \/ exists token, pong = [Send (lit "PONG " ++ token)])
    /\ (reply = []
        \/ (exists target,
              mem target (channels self) = true
              /\ (reply = [Send (lit "PRIVMSG " ++ target ++ lit " :" ++ usage)]
                  \/ reply = [Send (lit "PRIVMSG " ++ target ++ lit " :"
                                      ++ help_msg)]
                  \/ exists city,
                       reply = [Lookup city;
                                Send (lit "PRIVMSG " ++ target ++ lit " :"
                                        ++ get_weather city)]))).
Proof.
  unfold process_line. rewrite fst_bind.
  exists (fst (handle_ping line)),
    (match snd (handle_ping line) with
     | inl _ => []
     | inr a => fst (handle_privmsg self get_weather line)
     end).
  split; [reflexivity|]. split.
  - unfold handle_ping. destruct (startswith line (lit "PING")); [|now left].
    unfold index. destruct (nth_error (split_ws line) 1) as [token|];
      [|now left].
    right. exists token. now rewrite bind_ret.
  - destruct (snd (handle_ping line)); [now left|].
    unfold handle_privmsg, target_of, message_of, index.
    destruct (contains line (lit "PRIVMSG")); [|now left].
    destruct (nth_error (split_ws line) 2) as [target|]; [|now left].
    rewrite bind_ret.
    destruct (mem target (channels self)) eqn:Em; [|now left].
    destruct (nth_error (split line (lit "PRIVMSG")) 1) as [after|];
      [|now left].
    rewrite bind_ret.
    destruct (nth_error (split_max after (lit ":") 1) 1) as [text|];
      [|now left].
    rewrite !bind_ret. unfold handle_command.
    destruct (startswith (strip text) (lit "!weather")).
    + right. exists target. split; [exact Em|].
      destruct (1 <? length (split_ws (strip text))); [|now left].
      right; right. eexists. reflexivity.
    + destruct (eqb (strip text) (lit "!help")); [|now left].
      right. exists target. split; [exact Em|]. right; now left.
Qed.
